(** * generate_api_docs.py: OpenAPI to MDX converter

    A shallow embedding of [src/generate_api_docs.py]: the line-oriented
    extractor [parse_yaml_basic], the categorizer [get_endpoint_category],
    [sanitize_filename], the endpoint loop of [main] and
    [generate_navigation_config], followed by the properties of the
    natural-language specification that concern them. *)

From Stdlib Require Import List NArith Bool Arith Lia.
From Stdlib Require Import Strings.String Strings.Ascii.
From Stdlib Require Import Numbers.DecimalString Numbers.DecimalN.
Import ListNotations.

Set Implicit Arguments.

(* ================================================================= *)
(** ** Python strings *)

(** A Python [str] is a sequence of Unicode code points. *)
Module PyStr.

Definition codepoint := N.
Definition str := list codepoint.

(** An ASCII literal of the source, as a [str]. *)
Definition lit (s : string) : str := map N_of_ascii (list_ascii_of_string s).

(** [a == b] *)
Fixpoint str_eqb (a b : str) : bool :=
  match a, b with
  | [], [] => true
  | x :: a', y :: b' => N.eqb x y && str_eqb a' b'
  | _, _ => false
  end.

(** [s.startswith(pre)] *)
Fixpoint startswith (pre s : str) : bool :=
  match pre, s with
  | [], _ => true
  | _ :: _, [] => false
  | a :: pre', b :: s' => N.eqb a b && startswith pre' s'
  end.

(** [s.endswith(suf)] *)
Definition endswith (suf s : str) : bool := startswith (rev suf) (rev s).

(** [sub in s] *)
Fixpoint contains (sub s : str) : bool :=
  startswith sub s ||
  match s with
  | [] => false
  | _ :: s' => contains sub s'
  end.

(** [s.split(sep)] for a one-character separator: never empty, the pieces
    hold no separator. *)
Fixpoint split_on (sep : codepoint) (s : str) : list str :=
  match s with
  | [] => [[]]
  | c :: s' =>
      if N.eqb c sep then [] :: split_on sep s'
      else match split_on sep s' with
           | [] => [[c]]
           | w :: ws => (c :: w) :: ws
           end
  end.

(** [s.replace(a, b)] for one-character [a] and [b]. *)
Definition replace_char (a b : codepoint) (s : str) : str :=
  map (fun c => if N.eqb c a then b else c) s.

(** Dropping the characters of a class from the left, the right, both ends:
    [s.lstrip(chars)], [s.rstrip(chars)], [s.strip(chars)]. *)
Fixpoint lstrip_by (p : codepoint -> bool) (s : str) : str :=
  match s with
  | [] => []
  | c :: s' => if p c then lstrip_by p s' else s
  end.

Definition rstrip_by (p : codepoint -> bool) (s : str) : str :=
  rev (lstrip_by p (rev s)).

Definition strip_by (p : codepoint -> bool) (s : str) : str :=
  rstrip_by p (lstrip_by p s).

(** [Py_UNICODE_ISSPACE]: the complete list of the interpreter. *)
Definition isspace (c : codepoint) : bool :=
  ((9 <=? c) && (c <=? 13) || (28 <=? c) && (c <=? 32)
   || (c =? 133) || (c =? 160) || (c =? 5760)
   || (8192 <=? c) && (c <=? 8202)
   || (c =? 8232) || (c =? 8233) || (c =? 8239) || (c =? 8287)
   || (c =? 12288))%N.

(** [s.strip()] *)
Definition strip (s : str) : str := strip_by isspace s.

(** [s[n:]] and [s[:-1]] *)
Definition slice_from (n : nat) (s : str) : str := skipn n s.
Definition drop_last (s : str) : str := removelast s.

(** [sep.join(parts)] *)
Fixpoint join (sep : str) (parts : list str) : str :=
  match parts with
  | [] => []
  | [p] => p
  | p :: ps => p ++ sep ++ join sep ps
  end.

(** [str(n)] for a non-negative integer. *)
Definition str_of_N (n : N) : str := lit (NilEmpty.string_of_uint (N.to_uint n)).

Definition is_ascii (c : codepoint) : bool := (c <? 128)%N.
Definition ascii_upper (c : codepoint) : bool := ((65 <=? c) && (c <=? 90))%N.
Definition ascii_lower (c : codepoint) : bool := ((97 <=? c) && (c <=? 122))%N.
Definition ascii_digit (c : codepoint) : bool := ((48 <=? c) && (c <=? 57))%N.

(** The character tables of the interpreter beyond ASCII are no part of the
    repository: they are a parameter of the embedding. *)
Record UnicodeDB := {
  uni_isalnum : codepoint -> bool;        (* Py_UNICODE_ISALNUM *)
  uni_tolower : codepoint -> list codepoint; (* _PyUnicode_ToLowerFull *)
  uni_cased : codepoint -> bool;          (* _PyUnicode_IsCased *)
  uni_case_ignorable : codepoint -> bool; (* _PyUnicode_IsCaseIgnorable *)
  uni_title : str -> str                  (* str.title *)
}.

Section Tables.
Variable db : UnicodeDB.

(** [Py_UNICODE_ISALNUM], exact on ASCII. *)
Definition isalnum (c : codepoint) : bool :=
  if is_ascii c then ascii_upper c || ascii_lower c || ascii_digit c
  else uni_isalnum db c.

(** The class [\w] of [re] on a [str] pattern: alphanumeric or underscore. *)
Definition word_char (c : codepoint) : bool := isalnum c || (c =? 95)%N.

(** [_PyUnicode_ToLowerFull], exact on ASCII. *)
Definition tolower_full (c : codepoint) : list codepoint :=
  if is_ascii c then [if ascii_upper c then (c + 32)%N else c]
  else uni_tolower db c.

(** [handle_capital_sigma]: U+03A3 lowers to the final sigma U+03C2 when a
    cased character precedes it (case-ignorable ones skipped) and none
    follows it (likewise). [before] is the text to the left, nearest
    character first. *)
Definition first_not_ignorable (s : str) : option codepoint :=
  hd_error (lstrip_by (uni_case_ignorable db) s).

Definition cased_next (s : str) : bool :=
  match first_not_ignorable s with
  | Some c => uni_cased db c
  | None => false
  end.

Definition lower_sigma (before after : str) : codepoint :=
  if cased_next before && negb (cased_next after) then 962%N else 963%N.

Fixpoint lower_from (before s : str) : str :=
  match s with
  | [] => []
  | c :: s' =>
      (if (c =? 931)%N then [lower_sigma before s'] else tolower_full c)
      ++ lower_from (c :: before) s'
  end.

(** [s.lower()] *)
Definition lower (s : str) : str := lower_from [] s.

End Tables.

End PyStr.
Import PyStr.

Local Open Scope string_scope.
Local Open Scope list_scope.

(* ================================================================= *)
(** ** Filename sanitization and categorization *)

Section Converter.
Variable db : UnicodeDB.

Definition hyphen : codepoint := 45%N.
Definition is_hyphen (c : codepoint) : bool := (c =? hyphen)%N.

(** The complement of the class [[^\w\u4e00-\u9fff\-]]. *)
Definition kept_char (c : codepoint) : bool :=
  word_char db c || ((19968 <=? c) && (c <=? 40959))%N || is_hyphen c.

(** [re.sub(r'[^\w\u4e00-\u9fff\-]', '-', name)]: every character outside
    the class becomes a hyphen, one for one. *)
Definition sub_special (name : str) : str :=
  map (fun c => if kept_char c then c else hyphen) name.

(** [re.sub(r'-+', '-', name)]: every maximal run of hyphens becomes one
    hyphen; a hyphen followed by a hyphen is dropped. *)
Fixpoint sub_hyphen_runs (name : str) : str :=
  match name with
  | [] => []
  | c :: rest =>
      if is_hyphen c then
        match rest with
        | c' :: _ => if is_hyphen c' then sub_hyphen_runs rest
                     else c :: sub_hyphen_runs rest
        | [] => [c]
        end
      else c :: sub_hyphen_runs rest
  end.

Definition sanitize_filename (name : str) : str :=
  let name := sub_special name in
  let name := sub_hyphen_runs name in
  let name := strip_by is_hyphen name in
  lower db name.

Definition has (sub : string) (s : str) : bool := contains (lit sub) s.

(** The path fallback of [get_endpoint_category]. *)
Definition category_of_path (path : str) : str :=
  let path_lower := lower db path in
  if has "/chat/" path_lower then lit "openai-gpt"
  else if has "/images/" path_lower then lit "image-models"
  else if has "/audio/" path_lower then lit "audio-models"
  else if has "/veo/" path_lower then lit "gemini-veo"
  else if has "/mj/" path_lower then lit "midjourney"
  else if has "gemini" path_lower then lit "gemini"
  else if has "/upload/" path_lower || has "/files" path_lower
       then lit "file-services"
  else if has "/task" path_lower then lit "task-services"
  else lit "other".

(** The tag rules of [get_endpoint_category]: [None] when no rule matches
    and control falls through to the path rules. *)
Definition category_of_tag (main_tag : str) : option str :=
  if has "openai" main_tag then
    if has "gpt 4o" main_tag then Some (lit "openai-gpt4o")
    else if has "gpt" main_tag || has "reasoning" main_tag
         then Some (lit "openai-gpt")
    else if has "audio" main_tag then Some (lit "openai-audio")
    else Some (lit "openai")
  else if has "claude" main_tag then Some (lit "claude")
  else if has "gemini" main_tag then
    if has "veo3" main_tag || has "video" main_tag
    then Some (lit "gemini-veo")
    else Some (lit "gemini")
  else if has "grok" main_tag then Some (lit "grok")
  else if has "midjourney" main_tag then Some (lit "midjourney")
  else if has "suno" main_tag then Some (lit "suno")
  else if has "kling" main_tag then Some (lit "kling")
  else if has "runway" main_tag then Some (lit "runway")
  else if has "ideogram" main_tag then Some (lit "ideogram")
  else if has "flux" main_tag then Some (lit "flux")
  else if has "doubao" main_tag then Some (lit "doubao")
  else if has "higgsfield" main_tag then Some (lit "higgsfield")
  else if has "qwen" main_tag then Some (lit "qwen")
  else if has "minimax" main_tag then Some (lit "minimax")
  else None.

Definition get_endpoint_category (path : str) (tags : list str) : str :=
  match tags with
  | tag0 :: _ =>
      match category_of_tag (lower db tag0) with
      | Some category => category
      | None => category_of_path path
      end
  | [] => category_of_path path
  end.

End Converter.

(* ================================================================= *)
(** ** Dictionaries and exceptions *)

(** A Python [dict] with [str] keys keeps its keys in insertion order;
    assigning to a key that is present keeps the key's place. *)
Module Dict.
Section Dict.
Variable V : Type.

Definition dict := list (str * V).

Fixpoint get (k : str) (d : dict) : option V :=
  match d with
  | [] => None
  | (k', v) :: d' => if str_eqb k k' then Some v else get k d'
  end.

(** [k in d] *)
Definition mem (k : str) (d : dict) : bool :=
  match get k d with Some _ => true | None => false end.

(** [d[k] = v] *)
Fixpoint set (k : str) (v : V) (d : dict) : dict :=
  match d with
  | [] => [(k, v)]
  | (k', v') :: d' =>
      if str_eqb k k' then (k', v) :: d' else (k', v') :: set k v d'
  end.

(** [d.values()] *)
Definition values (d : dict) : list V := map snd d.

End Dict.
End Dict.

Inductive exn := KeyError (k : str).

(** What running a piece of the program gives: a value, an exception, or
    nothing within the bound the model puts on a [while] loop. *)
Inductive outcome (A : Type) :=
| Ok (a : A)
| Raise (e : exn)
| OutOfFuel.
Arguments Ok {A} a.
Arguments Raise {A} e.
Arguments OutOfFuel {A}.

Definition bind {A B} (m : outcome A) (f : A -> outcome B) : outcome B :=
  match m with
  | Ok a => f a
  | Raise e => Raise e
  | OutOfFuel => OutOfFuel
  end.

Notation "x <- m ;; k" := (bind m (fun x => k))
  (at level 61, m at next level, right associativity).

(** [d[k]] *)
Definition getitem {V} (k : str) (d : Dict.dict V) : outcome V :=
  match Dict.get k d with
  | Some v => Ok v
  | None => Raise (KeyError k)
  end.

(* ================================================================= *)
(** ** The extractor: [parse_yaml_basic] *)

(** An operation is a dict with the optional keys [tags], [summary] and
    [description]. *)
Record Operation := {
  op_tags : option (list str);
  op_summary : option str;
  op_description : option str
}.

Definition empty_operation : Operation :=
  {| op_tags := None; op_summary := None; op_description := None |}.

Definition set_tags (t : list str) (op : Operation) : Operation :=
  {| op_tags := Some t; op_summary := op_summary op;
     op_description := op_description op |}.
Definition set_summary (v : str) (op : Operation) : Operation :=
  {| op_tags := op_tags op; op_summary := Some v;
     op_description := op_description op |}.
Definition set_description (v : str) (op : Operation) : Operation :=
  {| op_tags := op_tags op; op_summary := op_summary op;
     op_description := Some v |}.

Definition Methods := Dict.dict Operation.
Definition Specification := Dict.dict Methods.

(** The local variables of [parse_yaml_basic]. *)
Record ParserState := {
  paths : Specification;
  current_path : option str;
  current_method : option str;
  current_operation : Operation;
  in_tags : bool;
  tags : list str
}.

Definition initial_state : ParserState :=
  {| paths := []; current_path := None; current_method := None;
     current_operation := empty_operation; in_tags := false; tags := [] |}.

(** Truth value of a variable that holds [None] or a [str]. *)
Definition truthy (v : option str) : bool :=
  match v with
  | Some (_ :: _) => true
  | _ => false
  end.

(** [if current_path not in paths: paths[current_path] = {}] then
    [paths[current_path][current_method] = current_operation]. *)
Definition store_operation (ps : Specification) (path method : str)
    (op : Operation) : outcome Specification :=
  let ps := if negb (Dict.mem path ps) then Dict.set path [] ps else ps in
  methods <- getitem path ps ;;
  Ok (Dict.set path (Dict.set method op methods) ps).

(** [if current_path and current_method: ...] *)
Definition finalize (st : ParserState) : outcome Specification :=
  match current_path st, current_method st with
  | Some path, Some method =>
      if truthy (current_path st) && truthy (current_method st)
      then store_operation (paths st) path method (current_operation st)
      else Ok (paths st)
  | _, _ => Ok (paths st)
  end.

Definition method_markers : list str :=
  [lit "get:"; lit "post:"; lit "put:"; lit "delete:"; lit "patch:"].

Definition is_path_marker (line_stripped : str) : bool :=
  startswith (lit "/") line_stripped && endswith (lit ":") line_stripped.

Definition is_method_marker (line_stripped : str) : bool :=
  existsb (str_eqb line_stripped) method_markers.

Definition is_quote (c : codepoint) : bool := (c =? 39)%N || (c =? 34)%N.

(** [line_stripped[n:].strip().strip(q)], [q] holding the single and the
    double quote. *)
Definition field_value (n : nat) (line_stripped : str) : str :=
  strip_by is_quote (strip (slice_from n line_stripped)).

(** [if in_tags: in_tags = False; current_operation['tags'] = tags] *)
Definition commit_open_tags (st : ParserState) : ParserState :=
  if in_tags st then
    {| paths := paths st; current_path := current_path st;
       current_method := current_method st;
       current_operation := set_tags (tags st) (current_operation st);
       in_tags := false; tags := tags st |}
  else st.

Definition with_operation (op : Operation) (st : ParserState) : ParserState :=
  {| paths := paths st; current_path := current_path st;
     current_method := current_method st; current_operation := op;
     in_tags := in_tags st; tags := tags st |}.

(** The body of the loop over the lines. *)
Definition step (st : ParserState) (line : str) : outcome ParserState :=
  let line_stripped := strip line in
  if is_path_marker line_stripped then
    ps <- finalize st ;;
    Ok {| paths := ps; current_path := Some (drop_last line_stripped);
          current_method := None; current_operation := empty_operation;
          in_tags := false; tags := [] |}
  else if is_method_marker line_stripped then
    ps <- finalize st ;;
    Ok {| paths := ps; current_path := current_path st;
          current_method := Some (drop_last line_stripped);
          current_operation := empty_operation;
          in_tags := false; tags := [] |}
  else if str_eqb line_stripped (lit "tags:") then
    Ok {| paths := paths st; current_path := current_path st;
          current_method := current_method st;
          current_operation := current_operation st;
          in_tags := true; tags := [] |}
  else if in_tags st && startswith (lit "- ") line_stripped then
    let tag_name := strip (slice_from 2 line_stripped) in
    Ok {| paths := paths st; current_path := current_path st;
          current_method := current_method st;
          current_operation := current_operation st;
          in_tags := in_tags st; tags := tags st ++ [tag_name] |}
  else if negb (str_eqb line_stripped [])
          && negb (startswith (lit "- ") line_stripped)
          && negb (startswith (lit " ") line_stripped)
          && in_tags st then
    Ok (commit_open_tags st)
  else if startswith (lit "summary:") line_stripped then
    let st := commit_open_tags st in
    let summary := field_value 8 line_stripped in
    Ok (with_operation (set_summary summary (current_operation st)) st)
  else if startswith (lit "description:") line_stripped then
    let st := commit_open_tags st in
    let desc := field_value 11 line_stripped in
    Ok (with_operation (set_description desc (current_operation st)) st)
  else Ok st.

Fixpoint run_lines (st : ParserState) (lines : list str)
    : outcome ParserState :=
  match lines with
  | [] => Ok st
  | line :: rest => st' <- step st line ;; run_lines st' rest
  end.

(** The code after the loop: the last operation is stored, its open tag
    block committed first. *)
Definition finish (st : ParserState) : outcome Specification :=
  if truthy (current_path st) && truthy (current_method st)
  then finalize (commit_open_tags st)
  else Ok (paths st).

(** [parse_yaml_basic(content)['paths']] *)
Definition parse_yaml_basic (content : str) : outcome Specification :=
  st <- run_lines initial_state (split_on 10%N content) ;;
  finish st.

(* ================================================================= *)
(** ** The endpoint loop of [main] and the navigation *)

Record Endpoint := {
  ep_path : str;
  ep_method : str;
  ep_operation : Operation;
  ep_filename : str;
  ep_summary : str
}.

Definition Categories := Dict.dict (list Endpoint).

(** The filenames assigned so far, over the endpoints of every category:
    the range of the generator in the condition of the [while] loop. *)
Definition assigned_filenames (ebc : Categories) : list str :=
  map ep_filename (List.concat (Dict.values ebc)).

Definition filename_taken (ebc : Categories) (filename : str) : bool :=
  existsb (fun f => str_eqb f filename) (assigned_filenames ebc).

(** The [while] loop that makes a filename unique; [fuel] bounds the
    number of tests of its condition. *)
Fixpoint unique_loop (fuel : nat) (ebc : Categories)
    (base_filename filename : str) (counter : N) : outcome str :=
  match fuel with
  | O => OutOfFuel
  | S fuel' =>
      if filename_taken ebc filename then
        unique_loop fuel' ebc base_filename
          (base_filename ++ lit "-" ++ str_of_N counter) (counter + 1)%N
      else Ok filename
  end.

Definition unique_filename (ebc : Categories) (filename : str)
    : outcome str :=
  unique_loop (S (List.length (assigned_filenames ebc))) ebc filename filename 1%N.

Definition http_methods : list str :=
  [lit "get"; lit "post"; lit "put"; lit "delete"; lit "patch"].

(** [operation.get('tags', [])] *)
Definition tags_of (operation : Operation) : list str :=
  match op_tags operation with Some t => t | None => [] end.

(** [operation.get('summary', f'{method}-{path}')] *)
Definition summary_of (path method : str) (operation : Operation) : str :=
  match op_summary operation with
  | Some s => s
  | None => method ++ lit "-" ++ path
  end.

(** [f"{method}-{path.replace('/', '-').strip('-')}"] *)
Definition fallback_name (path method : str) : str :=
  method ++ lit "-" ++ strip_by is_hyphen (replace_char 47%N hyphen path).

Record MainState := {
  endpoints_by_category : Categories;
  all_categories : list str
}.

(** [all_categories.add(category)] *)
Definition set_add (x : str) (s : list str) : list str :=
  if existsb (str_eqb x) s then s else s ++ [x].

Definition output_dir : str := lit "api-reference".

Definition file_path_of (category : str) (endpoint : Endpoint) : str :=
  output_dir ++ lit "/" ++ category ++ lit "/"
    ++ ep_filename endpoint ++ lit ".mdx".

(** The loop of [main] that writes the documents: the path of every file
    written, in order, and the counter [total_files]. The text of a
    document comes from [generate_endpoint_mdx] and bears on neither. *)
Fixpoint write_documents (ebc : Categories) : list str * nat :=
  match ebc with
  | [] => ([], 0)
  | (category, endpoints) :: rest =>
      let (files, total_files) := write_documents rest in
      (map (file_path_of category) endpoints ++ files,
       List.length endpoints + total_files)
  end.

Definition total_files (ebc : Categories) : nat := snd (write_documents ebc).

Definition category_names : Dict.dict str :=
  [ (lit "openai", lit "OpenAI");
    (lit "openai-gpt", lit "OpenAI GPT Series");
    (lit "openai-gpt4o", lit "OpenAI GPT-4o");
    (lit "openai-audio", lit "OpenAI Audio");
    (lit "claude", lit "Claude");
    (lit "gemini", lit "Gemini");
    (lit "gemini-veo", lit "Gemini Veo Video");
    (lit "grok", lit "Grok");
    (lit "midjourney", lit "Midjourney");
    (lit "suno", lit "Suno Music");
    (lit "kling", lit "Kling Video");
    (lit "runway", lit "Runway");
    (lit "ideogram", lit "Ideogram");
    (lit "flux", lit "Flux");
    (lit "doubao", lit "Doubao");
    (lit "higgsfield", lit "Higgsfield");
    (lit "qwen", lit "Qwen");
    (lit "minimax", lit "MiniMax");
    (lit "image-models", lit "Image Generation Models");
    (lit "audio-models", lit "Audio Processing Models");
    (lit "file-services", lit "File Services");
    (lit "task-services", lit "Task Management");
    (lit "other", lit "Other APIs") ].

Record NavigationGroup := {
  group : str;
  pages : list str
}.

Definition page_of (category : str) (endpoint : Endpoint) : str :=
  lit "api-reference/" ++ category ++ lit "/" ++ ep_filename endpoint.

(** The number of page references of a navigation. *)
Definition page_count (nav : list NavigationGroup) : nat :=
  list_sum (map (fun g => List.length (pages g)) nav).

Section Main.
Variable db : UnicodeDB.

(** The filename before the uniqueness loop. *)
Definition base_filename_of (path method : str) (operation : Operation)
    : str :=
  let filename := sanitize_filename db (summary_of path method operation) in
  if str_eqb filename [] then sanitize_filename db (fallback_name path method)
  else filename.

(** The body of the inner loop of [main], for one method of one path. *)
Definition add_endpoint (st : MainState) (path method : str)
    (operation : Operation) : outcome MainState :=
  if existsb (str_eqb method) http_methods then
    let ebc := endpoints_by_category st in
    let category := get_endpoint_category db path (tags_of operation) in
    let summary := summary_of path method operation in
    filename <- unique_filename ebc (base_filename_of path method operation) ;;
    let ebc := if negb (Dict.mem category ebc)
               then Dict.set category [] ebc else ebc in
    endpoints <- getitem category ebc ;;
    let endpoint := {| ep_path := path; ep_method := method;
                       ep_operation := operation; ep_filename := filename;
                       ep_summary := summary |} in
    Ok {| endpoints_by_category :=
            Dict.set category (endpoints ++ [endpoint]) ebc;
          all_categories := set_add category (all_categories st) |}
  else Ok st.

Fixpoint add_methods (st : MainState) (path : str) (methods : Methods)
    : outcome MainState :=
  match methods with
  | [] => Ok st
  | (method, operation) :: rest =>
      st' <- add_endpoint st path method operation ;;
      add_methods st' path rest
  end.

Fixpoint add_paths (st : MainState) (spec : Specification)
    : outcome MainState :=
  match spec with
  | [] => Ok st
  | (path, methods) :: rest =>
      st' <- add_methods st path methods ;;
      add_paths st' rest
  end.

(** The loops of [main] over [paths.items()] and [methods.items()]. *)
Definition collect_endpoints (spec : Specification) : outcome MainState :=
  add_paths {| endpoints_by_category := []; all_categories := [] |} spec.

(** [generate_navigation_config] *)
Fixpoint generate_navigation_config (ebc : Categories)
    : list NavigationGroup :=
  match ebc with
  | [] => []
  | (category, endpoints) :: rest =>
      match endpoints with
      | [] => generate_navigation_config rest
      | _ :: _ =>
          let group_name :=
            match Dict.get category category_names with
            | Some name => name
            | None => uni_title db category
            end in
          {| group := group_name; pages := map (page_of category) endpoints |}
          :: generate_navigation_config rest
      end
  end.

End Main.

(** An excerpt of the tables of CPython for the examples. ASCII is
    handled by the embedding itself. Beyond it the excerpt knows U+0130
    (capital I with dot above: alphanumeric, cased, lower-cased to [i]
    followed by U+0307) and U+0307 (combining dot above: not alphanumeric,
    case-ignorable, its own lower case); the tables of cased and
    case-ignorable characters are read next to a capital sigma only, which
    no example holds. *)
Definition unicode_excerpt : UnicodeDB :=
  {| uni_isalnum := fun c => (c =? 304)%N;
     uni_tolower := fun c => if (c =? 304)%N then [105; 775]%N else [c];
     uni_cased := fun c => (c =? 304)%N;
     uni_case_ignorable := fun c => (c =? 775)%N;
     uni_title := fun s => s |}.

(** A text as the list of its lines. *)
Definition newline : str := [10%N].
Definition text (lines : list string) : str := join newline (map lit lines).

(* ================================================================= *)
(** ** Vocabulary of the properties *)

(** A string of ASCII characters. *)
Definition all_ascii (s : str) : Prop := Forall (fun c => is_ascii c = true) s.

(** The lower case of an ASCII character. *)
Definition ascii_tolower (c : codepoint) : codepoint :=
  if ascii_upper c then (c + 32)%N else c.

(** A lower-case ASCII letter, a digit, a hyphen or an underscore. *)
Definition slug_char (c : codepoint) : bool :=
  ascii_lower c || ascii_digit c || is_hyphen c || (c =? 95)%N.

(** No two hyphens in a row. *)
Fixpoint no_double_hyphen (s : str) : bool :=
  match s with
  | [] => true
  | c :: rest =>
      match rest with
      | c' :: _ => negb (is_hyphen c && is_hyphen c')
      | [] => true
      end && no_double_hyphen rest
  end.

Definition not_hyphen (c : codepoint) : bool := negb (is_hyphen c).

(** Every operation of a specification satisfies [P]. *)
Definition ops_all (P : Operation -> Prop) (spec : Specification) : Prop :=
  forall path methods method op,
    In (path, methods) spec -> In (method, op) methods -> P op.

(** The lines of a text, as the extractor splits it. *)
Definition lines_of (content : str) : list str := split_on 10%N content.

(** A trimmed line that some branch of the loop of [parse_yaml_basic]
    acts on: a path marker, a method marker, [tags:], a [summary:] or
    [description:] line and, while a tag block is open, any line that is
    not empty (a list item or the line that closes the block). *)
Definition recognized (st : ParserState) (line_stripped : str) : bool :=
  is_path_marker line_stripped
  || is_method_marker line_stripped
  || str_eqb line_stripped (lit "tags:")
  || in_tags st && negb (str_eqb line_stripped [])
  || startswith (lit "summary:") line_stripped
  || startswith (lit "description:") line_stripped.

(** A parser state with a tag block open: the state after the lines
    [/a:], [get:], [tags:], [- x]. *)
Definition open_tag_block : ParserState :=
  {| paths := []; current_path := Some (lit "/a");
     current_method := Some (lit "get");
     current_operation := empty_operation;
     in_tags := true; tags := [lit "x"] |}.

(** The candidate that the uniqueness loop tries with counter [k]. *)
Definition suffixed (base_filename : str) (k : N) : str :=
  base_filename ++ lit "-" ++ str_of_N k.

(** The endpoints of all the categories, in the order of the dict. *)
Definition all_endpoints (ebc : Categories) : list Endpoint :=
  List.concat (Dict.values ebc).

(** The number of (path, method) entries of a specification that [main]
    turns into endpoints. *)
Definition endpoint_count (spec : Specification) : nat :=
  list_sum
    (map (fun pm : str * Methods =>
            List.length
              (filter (fun mo : str * Operation =>
                         existsb (str_eqb (fst mo)) http_methods) (snd pm)))
       spec).

(** Two operations with the summary "List", one under a chat path and one
    under a files path. *)
Definition list_operation : Operation :=
  set_summary (lit "List") empty_operation.

Definition two_lists : Specification :=
  [ (lit "/v1/chat/threads", [(lit "get", list_operation)]);
    (lit "/v1/files", [(lit "get", list_operation)]) ].

Definition chat_list : Endpoint :=
  {| ep_path := lit "/v1/chat/threads"; ep_method := lit "get";
     ep_operation := list_operation; ep_filename := lit "list";
     ep_summary := lit "List" |}.

(** A method that [main] turns into an endpoint. *)
Definition is_http_method (method : str) : bool :=
  existsb (str_eqb method) http_methods.

(** The first character of a string, if any, is outside the class [p]. *)
Definition no_lead (p : codepoint -> bool) (s : str) : Prop :=
  match s with
  | c :: _ => p c = false
  | [] => True
  end.

(** A name before the lower-casing that ends [sanitize_filename]. *)
Definition hyphenated (db : UnicodeDB) (name : str) : str :=
  strip_by is_hyphen (sub_hyphen_runs (sub_special db name)).

(** The endpoints of all the categories, each with its category. *)
Definition tagged_endpoints (ebc : Categories) : list (str * Endpoint) :=
  List.concat
    (map (fun ce : str * list Endpoint => map (pair (fst ce)) (snd ce)) ebc).

(** What the endpoint loop keeps true: no two endpoints share a filename,
    whatever their categories, and no category holds a slash. *)
Definition well_named (ebc : Categories) : Prop :=
  NoDup (assigned_filenames ebc)
  /\ forall category, In category (map fst ebc) -> ~ In 47%N category.

(** From one state of the endpoint loop to a later one: [n] endpoints
    were added, each with a filename that is not empty, and the names stay
    distinct. *)
Definition grows (n : nat) (st st' : MainState) : Prop :=
  List.length (all_endpoints (endpoints_by_category st'))
  = List.length (all_endpoints (endpoints_by_category st)) + n
  /\ (forall e, In e (all_endpoints (endpoints_by_category st')) ->
       In e (all_endpoints (endpoints_by_category st)) \/ ep_filename e <> [])
  /\ (well_named (endpoints_by_category st) ->
      well_named (endpoints_by_category st')).

(** [paths.get(path, {})]: the methods recorded under a path. *)
Definition methods_at (spec : Specification) (path : str) : Methods :=
  match Dict.get path spec with
  | Some methods => methods
  | None => []
  end.

(** The operation recorded under a path and a method, if any. *)
Definition lookup_operation (spec : Specification) (path method : str)
    : option Operation :=
  match Dict.get path spec with
  | Some methods => Dict.get method methods
  | None => None
  end.

(** A path that a path marker among the lines [L] names. *)
Definition path_marked (L : list str) (path : str) : Prop :=
  exists line,
    In line L /\ is_path_marker (strip line) = true
    /\ path = drop_last (strip line).

(** A method that a method marker among the lines [L] names. *)
Definition method_marked (L : list str) (method : str) : Prop :=
  exists line,
    In line L /\ is_method_marker (strip line) = true
    /\ method = drop_last (strip line).

(** The entries of a specification come from markers among the lines [L],
    no path is without a method and no method occurs twice under a
    path. *)
Definition entries_marked (L : list str) (spec : Specification) : Prop :=
  forall path methods,
    In (path, methods) spec ->
    path_marked L path /\ methods <> [] /\ NoDup (map fst methods)
    /\ forall method op, In (method, op) methods -> method_marked L method.

(** What the loop of [parse_yaml_basic] keeps true of its variables. *)
Definition state_marked (L : list str) (st : ParserState) : Prop :=
  entries_marked L (paths st)
  /\ NoDup (map fst (paths st))
  /\ (forall path, current_path st = Some path -> path_marked L path)
  /\ (forall method,
        current_method st = Some method -> method_marked L method).

(** A specification with one operation under [/a] and [get]. *)
Definition one_operation : Specification :=
  [(lit "/a", [(lit "get", empty_operation)])].

(** A text with one path and two methods. *)
Definition two_methods_text : str := text ["/a:"; "  get:"; "  post:"].

(** The tag that a list item of a tag block holds. *)
Definition tag_of_item (line : str) : str :=
  strip (slice_from 2 (strip line)).

(** [endpoints_by_category.get(category, [])] *)
Definition endpoints_at (ebc : Categories) (category : str) : list Endpoint :=
  match Dict.get category ebc with
  | Some endpoints => endpoints
  | None => []
  end.

(** The categories after an endpoint was appended under its category. *)
Definition with_endpoint (ebc : Categories) (category : str) (e : Endpoint)
    : Categories :=
  Dict.set category (endpoints_at ebc category ++ [e]) ebc.

(** An endpoint as [main] builds it from an entry of the specification:
    it is filed under the category of its path and tags, its method is one
    of the five, its summary is that of the operation or the default, and
    its filename is the sanitized name or that name with a suffix. *)
Definition endpoint_filed (db : UnicodeDB) (spec : Specification)
    (category : str) (e : Endpoint) : Prop :=
  category = get_endpoint_category db (ep_path e) (tags_of (ep_operation e))
  /\ In (ep_method e) http_methods
  /\ (exists methods,
        In (ep_path e, methods) spec
        /\ In (ep_method e, ep_operation e) methods)
  /\ ep_summary e = summary_of (ep_path e) (ep_method e) (ep_operation e)
  /\ (ep_filename e
      = base_filename_of db (ep_path e) (ep_method e) (ep_operation e)
      \/ exists k,
           (1 <= k)%N
           /\ ep_filename e
              = suffixed
                  (base_filename_of db (ep_path e) (ep_method e)
                     (ep_operation e)) k).

(** What the endpoint loop keeps true of its variables. *)
Definition categories_filed (db : UnicodeDB) (spec : Specification)
    (st : MainState) : Prop :=
  all_categories st = map fst (endpoints_by_category st)
  /\ NoDup (map fst (endpoints_by_category st))
  /\ forall category endpoints,
       In (category, endpoints) (endpoints_by_category st) ->
       endpoints <> []
       /\ forall e, In e endpoints -> endpoint_filed db spec category e.

(** The entries of a specification, path by path and method by method,
    in the order in which [main] goes through them. *)
Definition entries_of (spec : Specification)
    : list (str * str * Operation) :=
  List.concat
    (map (fun pm : str * Methods =>
            map (fun mo : str * Operation => (fst pm, fst mo, snd mo))
              (snd pm))
       spec).

(** The entry that an endpoint stands for. *)
Definition entry_of (e : Endpoint) : str * str * Operation :=
  (ep_path e, ep_method e, ep_operation e).

(** The entries that [main] files under a category. *)
Definition filed_under (db : UnicodeDB) (category : str)
    (entry : str * str * Operation) : bool :=
  is_http_method (snd (fst entry))
  && str_eqb (get_endpoint_category db (fst (fst entry))
                (tags_of (snd entry))) category.

(** An operation is secured in a state of the extractor when it is
    recorded under the path and method, or is the one in progress. *)
Definition secured (st : ParserState) (path method : str) : Prop :=
  (exists op, lookup_operation (paths st) path method = Some op)
  \/ (current_path st = Some path /\ current_method st = Some method).

(** The range U+4E00..U+9FFF that the class of [sanitize_filename]
    names. *)
Definition in_cjk_range (c : codepoint) : bool :=
  ((19968 <=? c) && (c <=? 40959))%N.


(** A character that [sanitize_filename] keeps and that is no hyphen: a
    word character of [\w], or in the range. *)
Definition kept_word_char (db : UnicodeDB) (c : codepoint) : bool :=
  word_char db c || in_cjk_range c.





(** What lower-casing can put in the place of a character: its lower
    case in full, for the capital sigma either small sigma. *)
Definition lowered_forms (db : UnicodeDB) (c : codepoint) : list codepoint :=
  if (c =? 931)%N then [962; 963]%N else tolower_full db c.

(** A character that is its own lower case. *)
Definition own_lower (db : UnicodeDB) (c : codepoint) : bool :=
  str_eqb (lower db [c]) [c].

(** Lower-casing turns the character into characters of the class [good]
    that are their own lower case. *)
Definition lowers_into (good : codepoint -> bool) (db : UnicodeDB)
    (c : codepoint) : bool :=
  forallb (fun d => good d && own_lower db d) (lowered_forms db c).


(** A character in whose place lower-casing puts itself, if it is a
    hyphen, and one character or more, none a hyphen, otherwise. *)
Definition lowers_apart (db : UnicodeDB) (c : codepoint) : Prop :=
  is_hyphen c = true
  \/ (lowered_forms db c <> []
      /\ Forall (fun d => is_hyphen d = false) (lowered_forms db c)).

(** A specification with one operation whose summary holds no letter or
    digit, and the endpoint that [main] makes of it. *)
Definition unnamed_operation : Specification :=
  [(lit "/v1/x", [(lit "post", set_summary (lit "???") empty_operation)])].

Definition unnamed_endpoint : Endpoint :=
  {| ep_path := lit "/v1/x"; ep_method := lit "post";
     ep_operation := set_summary (lit "???") empty_operation;
     ep_filename := lit "post-v1-x"; ep_summary := lit "???" |}.

(** A line that is a path marker or a method marker. *)
Definition is_marker (line : str) : bool :=
  is_path_marker (strip line) || is_method_marker (strip line).

(** The lines of an operation end with the text or before a marker. *)
Definition segment_end (after : list str) : bool :=
  match after with
  | [] => true
  | line :: _ => is_marker line
  end.

(** The lines open the method again under the path: they hold a marker
    of the method at a place where the path is the current one,
    [current] being the current path before them. *)
Fixpoint reopened (path method : str) (current : option str)
    (lines : list str) : bool :=
  match lines with
  | [] => false
  | line :: rest =>
      if is_path_marker (strip line)
      then reopened path method (Some (drop_last (strip line))) rest
      else if is_method_marker (strip line)
      then match current with
           | Some p => str_eqb p path
           | None => false
           end && str_eqb (drop_last (strip line)) method
           || reopened path method current rest
      else reopened path method current rest
  end.

(** Three operations, of which the second sets no field. *)
Definition three_operations_text : str :=
  text ["paths:"; "  /a:"; "    get:"; "      summary: s"; "    post:";
        "      operationId: p"; "  /b:"; "    post:"; "      summary: t"].

Unset Implicit Arguments.

(* ================================================================= *)
(** ** Strings: basic facts *)

Lemma str_eqb_eq (a b : str) : str_eqb a b = true <-> a = b.
Proof.
  revert b; induction a as [|x a IH]; intros [|y b]; simpl;
    try (split; [discriminate | congruence]); try tauto.
  rewrite andb_true_iff, N.eqb_eq, IH. split.
  - intros [-> ->]; reflexivity.
  - intros H; injection H; auto.
Qed.

Lemma str_eqb_refl (a : str) : str_eqb a a = true.
Proof. apply str_eqb_eq; reflexivity. Qed.

Lemma str_eqb_neq (a b : str) : str_eqb a b = false <-> a <> b.
Proof.
  rewrite <- str_eqb_eq. destruct (str_eqb a b); split; congruence.
Qed.

Lemma existsb_str_eqb_In (x : str) (l : list str) :
  existsb (str_eqb x) l = true <-> In x l.
Proof.
  rewrite existsb_exists. split.
  - intros (y & Hy & E). apply str_eqb_eq in E. subst; assumption.
  - intros H. exists x. split; [assumption | apply str_eqb_refl].
Qed.

(* ================================================================= *)
(** ** Categorization *)

(** C1 (as amended). For every path, an operation tagged exactly
    ["OpenAI GPT-4o Series"] is categorized as [openai-gpt]: the tag, taken
    first and lower-cased, holds "openai" and "gpt" but not "gpt 4o", whose
    space the tag writes as a hyphen. The tag "OpenAI GPT 4o Series" is the
    one categorized as [openai-gpt4o], on every path. *)
Theorem C1_gpt4o_tag_category (db : UnicodeDB) (path : str) :
  get_endpoint_category db path [lit "OpenAI GPT-4o Series"]
    = lit "openai-gpt"
  /\ get_endpoint_category db path [lit "OpenAI GPT 4o Series"]
    = lit "openai-gpt4o".
Proof. split; reflexivity. Qed.

(** C1 (as stated) fails: the category of the tag list
    ["OpenAI GPT-4o Series"] is not [openai-gpt4o]. *)
Lemma C1_counterexample :
  get_endpoint_category unicode_excerpt (lit "/v1/chat/completions")
    [lit "OpenAI GPT-4o Series"] <> lit "openai-gpt4o".
Proof. vm_compute. discriminate. Qed.

(* ================================================================= *)
(** ** Stripping *)

Section Strip.
Variable p : codepoint -> bool.

Lemma lstrip_by_no_lead (s : str) : no_lead p (lstrip_by p s).
Proof.
  induction s as [|c s IH]; simpl; [exact I|].
  destruct (p c) eqn:E; [exact IH | exact E].
Qed.

Lemma lstrip_by_fixed (s : str) : no_lead p s -> lstrip_by p s = s.
Proof. destruct s as [|c s]; simpl; [reflexivity|]. intros ->; reflexivity. Qed.

Lemma lstrip_by_snoc (a : str) (c : codepoint) :
  lstrip_by p (a ++ [c]) =
  match lstrip_by p a with
  | [] => if p c then [] else [c]
  | l => l ++ [c]
  end.
Proof.
  induction a as [|x a IH]; simpl; [reflexivity|].
  destruct (p x); [exact IH | reflexivity].
Qed.

(** [rstrip_by] read from the left. *)
Lemma rstrip_by_cons (c : codepoint) (s : str) :
  rstrip_by p (c :: s) =
  match rstrip_by p s with
  | [] => if p c then [] else [c]
  | r => c :: r
  end.
Proof.
  unfold rstrip_by. simpl rev. rewrite lstrip_by_snoc.
  destruct (lstrip_by p (rev s)) as [|x l]; simpl.
  - destruct (p c); reflexivity.
  - rewrite rev_app_distr. simpl.
    destruct (rev l ++ [x]) eqn:E; [|reflexivity].
    destruct (rev l); discriminate.
Qed.

Lemma rstrip_by_nil : rstrip_by p [] = [].
Proof. reflexivity. Qed.

Lemma rstrip_by_cons_keep (c : codepoint) (s : str) :
  p c = false -> rstrip_by p (c :: s) = c :: rstrip_by p s.
Proof.
  intros E. rewrite rstrip_by_cons, E. destruct (rstrip_by p s); reflexivity.
Qed.

Lemma rstrip_by_no_lead (s : str) : no_lead p s -> no_lead p (rstrip_by p s).
Proof.
  destruct s as [|c s]; simpl; [intros _; exact I|].
  intros E. rewrite rstrip_by_cons_keep by exact E. exact E.
Qed.

Lemma rstrip_by_idem (s : str) : rstrip_by p (rstrip_by p s) = rstrip_by p s.
Proof.
  unfold rstrip_by. rewrite rev_involutive.
  rewrite (lstrip_by_fixed _ (lstrip_by_no_lead (rev s))). reflexivity.
Qed.

Lemma strip_by_no_lead (s : str) : no_lead p (strip_by p s).
Proof. apply rstrip_by_no_lead, lstrip_by_no_lead. Qed.

Lemma strip_by_no_trail (s : str) : no_lead p (rev (strip_by p s)).
Proof.
  unfold strip_by, rstrip_by. rewrite rev_involutive. apply lstrip_by_no_lead.
Qed.

Lemma strip_by_fixed (s : str) :
  no_lead p s -> no_lead p (rev s) -> strip_by p s = s.
Proof.
  intros H1 H2. unfold strip_by. rewrite (lstrip_by_fixed _ H1).
  unfold rstrip_by. rewrite (lstrip_by_fixed _ H2). apply rev_involutive.
Qed.

Lemma strip_by_idem (s : str) : strip_by p (strip_by p s) = strip_by p s.
Proof. apply strip_by_fixed; [apply strip_by_no_lead | apply strip_by_no_trail]. Qed.

Lemma lstrip_by_Forall (P : codepoint -> Prop) (s : str) :
  Forall P s -> Forall P (lstrip_by p s).
Proof.
  induction 1 as [|c s Hc Hs IH]; simpl; [constructor|].
  destruct (p c); [exact IH | constructor; assumption].
Qed.

Lemma rstrip_by_Forall (P : codepoint -> Prop) (s : str) :
  Forall P s -> Forall P (rstrip_by p s).
Proof.
  induction 1 as [|c s Hc Hs IH]; [constructor|].
  rewrite rstrip_by_cons. destruct (rstrip_by p s) as [|x r].
  - destruct (p c); constructor; [assumption | constructor].
  - constructor; assumption.
Qed.

Lemma strip_by_Forall (P : codepoint -> Prop) (s : str) :
  Forall P s -> Forall P (strip_by p s).
Proof. intros H. apply rstrip_by_Forall, lstrip_by_Forall, H. Qed.

(** Stripping drops characters of the class only. *)
Lemma lstrip_by_filter (s : str) :
  filter (fun c => negb (p c)) (lstrip_by p s) = filter (fun c => negb (p c)) s.
Proof.
  induction s as [|c s IH]; simpl; [reflexivity|].
  destruct (p c) eqn:E; simpl; [exact IH | rewrite E; reflexivity].
Qed.

Lemma rstrip_by_filter (s : str) :
  filter (fun c => negb (p c)) (rstrip_by p s) = filter (fun c => negb (p c)) s.
Proof.
  induction s as [|c s IH]; [reflexivity|].
  rewrite rstrip_by_cons. destruct (rstrip_by p s) as [|x r].
  - simpl in IH. simpl. rewrite <- IH.
    destruct (p c) eqn:E; simpl; [reflexivity | rewrite E; reflexivity].
  - change (c :: x :: r) with ([c] ++ (x :: r)).
    change (c :: s) with ([c] ++ s).
    rewrite !filter_app, IH. reflexivity.
Qed.

Lemma strip_by_filter (s : str) :
  filter (fun c => negb (p c)) (strip_by p s) = filter (fun c => negb (p c)) s.
Proof. unfold strip_by. rewrite rstrip_by_filter. apply lstrip_by_filter. Qed.

(** Stripping commutes with a map that respects the class. *)
Lemma lstrip_by_map (f : codepoint -> codepoint) (s : str) :
  (forall c, p (f c) = p c) ->
  lstrip_by p (map f s) = map f (lstrip_by p s).
Proof.
  intros Hf. induction s as [|c s IH]; simpl; [reflexivity|].
  rewrite Hf. destruct (p c); [exact IH | reflexivity].
Qed.

Lemma strip_by_map (f : codepoint -> codepoint) (s : str) :
  (forall c, p (f c) = p c) ->
  strip_by p (map f s) = map f (strip_by p s).
Proof.
  intros Hf. unfold strip_by, rstrip_by.
  rewrite (lstrip_by_map _ _ Hf), <- map_rev, (lstrip_by_map _ _ Hf), map_rev.
  reflexivity.
Qed.

End Strip.

(* ================================================================= *)
(** ** Sanitization *)

Lemma is_hyphen_eq (c : codepoint) : is_hyphen c = true -> c = hyphen.
Proof. apply N.eqb_eq. Qed.

Lemma sub_hyphen_runs_keep (c : codepoint) (s : str) :
  is_hyphen c = false -> sub_hyphen_runs (c :: s) = c :: sub_hyphen_runs s.
Proof. intros E. simpl. rewrite E. reflexivity. Qed.

Lemma sub_hyphen_runs_eq (c : codepoint) (s : str) :
  sub_hyphen_runs (c :: s) =
  if is_hyphen c then
    match s with
    | c' :: _ => if is_hyphen c' then sub_hyphen_runs s
                 else c :: sub_hyphen_runs s
    | [] => [c]
    end
  else c :: sub_hyphen_runs s.
Proof. reflexivity. Qed.

Lemma sub_hyphen_runs_hyphen (c : codepoint) (s : str) :
  is_hyphen c = true ->
  sub_hyphen_runs (c :: s) = c :: sub_hyphen_runs (lstrip_by is_hyphen s).
Proof.
  intros E. revert c E. induction s as [|c' s IH]; intros c E.
  - simpl. rewrite E. reflexivity.
  - rewrite (sub_hyphen_runs_eq c (c' :: s)), E. simpl lstrip_by.
    destruct (is_hyphen c') eqn:E'.
    + rewrite (IH c' E'). rewrite (is_hyphen_eq _ E), (is_hyphen_eq _ E').
      reflexivity.
    + reflexivity.
Qed.

Lemma no_double_hyphen_keep (c : codepoint) (s : str) :
  is_hyphen c = false -> no_double_hyphen (c :: s) = no_double_hyphen s.
Proof. intros E. simpl. rewrite E. destruct s; reflexivity. Qed.

Lemma no_double_hyphen_tail (c : codepoint) (s : str) :
  no_double_hyphen (c :: s) = true -> no_double_hyphen s = true.
Proof. simpl. intros H. apply andb_true_iff in H. apply H. Qed.

Lemma no_double_hyphen_after (c : codepoint) (s : str) :
  is_hyphen c = true -> no_lead is_hyphen s ->
  no_double_hyphen (c :: s) = no_double_hyphen s.
Proof.
  intros E H. destruct s as [|c' s]; [reflexivity|].
  simpl in H. change (no_double_hyphen (c :: c' :: s))
    with (negb (is_hyphen c && is_hyphen c') && no_double_hyphen (c' :: s)).
  rewrite H, andb_false_r. reflexivity.
Qed.

Lemma sub_hyphen_runs_no_double (s : str) :
  no_double_hyphen (sub_hyphen_runs s) = true.
Proof.
  remember (List.length s) as n eqn:Hn. revert s Hn.
  induction n as [n IH] using lt_wf_ind. intros [|c s] Hn; [reflexivity|].
  destruct (is_hyphen c) eqn:E.
  - rewrite (sub_hyphen_runs_hyphen _ _ E).
    assert (Hs : exists pre, s = pre ++ lstrip_by is_hyphen s).
    { clear. induction s as [|x s [pre IHs]]; [exists []; reflexivity|].
      simpl. destruct (is_hyphen x).
      - exists (x :: pre). simpl. f_equal. exact IHs.
      - exists []. reflexivity. }
    destruct Hs as [pre Hs].
    assert (Hlen : List.length (lstrip_by is_hyphen s) < n).
    { subst n. simpl. rewrite Hs at 2. rewrite length_app. lia. }
    pose proof (IH _ Hlen _ eq_refl) as IH'.
    pose proof (lstrip_by_no_lead is_hyphen s) as Hl.
    destruct (lstrip_by is_hyphen s) as [|c' t] eqn:Et; [reflexivity|].
    simpl in Hl. rewrite (sub_hyphen_runs_keep _ _ Hl) in *.
    rewrite no_double_hyphen_after; [exact IH' | exact E | exact Hl].
  - rewrite (sub_hyphen_runs_keep _ _ E), (no_double_hyphen_keep _ _ E).
    apply (IH (List.length s)); [subst n; simpl; lia | reflexivity].
Qed.

Lemma sub_hyphen_runs_fixed (s : str) :
  no_double_hyphen s = true -> sub_hyphen_runs s = s.
Proof.
  induction s as [|c s IH]; [reflexivity|]. intros H.
  pose proof (no_double_hyphen_tail _ _ H) as Ht.
  simpl. destruct (is_hyphen c) eqn:E.
  - destruct s as [|c' s]; [reflexivity|].
    simpl in H. rewrite E in H. simpl in H.
    destruct (is_hyphen c') eqn:E'; [discriminate|].
    rewrite (IH Ht). reflexivity.
  - rewrite (IH Ht). reflexivity.
Qed.

Lemma sub_hyphen_runs_Forall (P : codepoint -> Prop) (s : str) :
  Forall P s -> Forall P (sub_hyphen_runs s).
Proof.
  induction 1 as [|c s Hc Hs IH]; [constructor|].
  simpl. destruct (is_hyphen c).
  - destruct s as [|c' s]; [constructor; [assumption | constructor]|].
    destruct (is_hyphen c'); [exact IH | constructor; assumption].
  - constructor; assumption.
Qed.

Lemma sub_hyphen_runs_filter (s : str) :
  filter not_hyphen (sub_hyphen_runs s) = filter not_hyphen s.
Proof.
  induction s as [|c s IH]; [reflexivity|].
  simpl. unfold not_hyphen at 2. destruct (is_hyphen c) eqn:E; simpl.
  - destruct s as [|c' s]; [simpl; unfold not_hyphen; rewrite E; reflexivity|].
    destruct (is_hyphen c') eqn:E'; [exact IH|].
    simpl. unfold not_hyphen at 1. rewrite E. simpl. exact IH.
  - unfold not_hyphen at 1. rewrite E. simpl. rewrite IH. reflexivity.
Qed.

Lemma no_double_hyphen_lstrip (p : codepoint -> bool) (s : str) :
  no_double_hyphen s = true -> no_double_hyphen (lstrip_by p s) = true.
Proof.
  induction s as [|c s IH]; [reflexivity|]. intros H. simpl.
  destruct (p c); [apply IH, (no_double_hyphen_tail _ _ H) | exact H].
Qed.

Lemma no_double_hyphen_rstrip (p : codepoint -> bool) (s : str) :
  no_double_hyphen s = true -> no_double_hyphen (rstrip_by p s) = true.
Proof.
  induction s as [|c s IH]; [reflexivity|]. intros H.
  pose proof (IH (no_double_hyphen_tail _ _ H)) as IH'.
  rewrite rstrip_by_cons. destruct (rstrip_by p s) as [|x r] eqn:Er.
  - destruct (p c); reflexivity.
  - destruct s as [|c' s]; [discriminate|].
    rewrite rstrip_by_cons in Er.
    assert (x = c').
    { destruct (rstrip_by p s); [destruct (p c')|]; congruence. }
    subst x. simpl in H. apply andb_true_iff in H. destruct H as [H _].
    change (no_double_hyphen (c :: c' :: r))
      with (negb (is_hyphen c && is_hyphen c') && no_double_hyphen (c' :: r)).
    rewrite H, IH'. reflexivity.
Qed.

Lemma no_double_hyphen_map (f : codepoint -> codepoint) (s : str) :
  (forall c, is_hyphen (f c) = is_hyphen c) ->
  no_double_hyphen (map f s) = no_double_hyphen s.
Proof.
  intros Hf. induction s as [|c s IH]; [reflexivity|].
  simpl. rewrite IH, Hf. destruct s; simpl; [|rewrite Hf]; reflexivity.
Qed.

Ltac unfold_classes :=
  unfold slug_char, kept_char, word_char, isalnum, ascii_tolower, not_hyphen,
    is_hyphen, hyphen, is_ascii, ascii_upper, ascii_lower, ascii_digit in *.

(** Boolean comparisons of code points, read as propositions. *)
Ltac bool_to_prop :=
  repeat match goal with
  | H : context [if ?b then _ else _] |- _ => destruct b eqn:?
  | |- context [if ?b then _ else _] => destruct b eqn:?
  end;
  try match goal with
  | |- _ = true => fail 1
  | |- _ = false => fail 1
  | |- @eq bool _ _ => apply Bool.eq_iff_eq_true
  end;
  repeat (progress
    (rewrite ?negb_true_iff, ?negb_false_iff, ?orb_true_iff, ?andb_true_iff,
       ?orb_false_iff, ?andb_false_iff, ?N.leb_le, ?N.ltb_lt, ?N.eqb_eq,
       ?N.leb_gt, ?N.ltb_ge, ?N.eqb_neq in *)).

Ltac class_facts :=
  intros; unfold_classes; bool_to_prop; try lia; try (intuition lia).

Lemma ascii_tolower_hyphen (c : codepoint) :
  is_hyphen (ascii_tolower c) = is_hyphen c.
Proof. class_facts. Qed.

Lemma ascii_tolower_ascii (c : codepoint) :
  is_ascii c = true -> is_ascii (ascii_tolower c) = true.
Proof. class_facts. Qed.

Lemma slug_char_tolower (c : codepoint) :
  slug_char c = true -> ascii_tolower c = c.
Proof. class_facts. Qed.

Lemma slug_char_ascii (c : codepoint) :
  slug_char c = true -> is_ascii c = true.
Proof. class_facts. Qed.

Section Sanitize.
Variable db : UnicodeDB.

Lemma slug_char_kept (c : codepoint) :
  slug_char c = true -> kept_char db c = true.
Proof. class_facts. Qed.

Lemma kept_ascii_slug (c : codepoint) :
  is_ascii c = true -> kept_char db c = true ->
  slug_char (ascii_tolower c) = true.
Proof. class_facts. Qed.

Lemma word_char_ascii (c : codepoint) :
  is_ascii c = true ->
  word_char db c = kept_char db c && not_hyphen c.
Proof. class_facts. Qed.

Lemma lower_from_ascii (s before : str) :
  all_ascii s -> lower_from db before s = map ascii_tolower s.
Proof.
  intros H. revert before. induction H as [|c s Hc Hs IH]; intros before.
  - reflexivity.
  - simpl. rewrite IH. unfold tolower_full. rewrite Hc.
    replace (c =? 931)%N with false; [reflexivity|].
    symmetry. class_facts.
Qed.

Lemma lower_ascii (s : str) : all_ascii s -> lower db s = map ascii_tolower s.
Proof. apply lower_from_ascii. Qed.

Lemma sub_special_kept (s : str) :
  Forall (fun c => kept_char db c = true) (sub_special db s).
Proof.
  induction s as [|c s IH]; constructor; [|exact IH].
  destruct (kept_char db c) eqn:E; [exact E|].
  unfold kept_char. rewrite orb_true_iff. right. reflexivity.
Qed.

Lemma sub_special_ascii (s : str) :
  all_ascii s -> all_ascii (sub_special db s).
Proof.
  induction 1 as [|c s Hc Hs IH]; constructor; [|exact IH].
  destruct (kept_char db c); [exact Hc | reflexivity].
Qed.

Lemma sub_special_fixed (s : str) :
  Forall (fun c => kept_char db c = true) s -> sub_special db s = s.
Proof.
  induction 1 as [|c s Hc Hs IH]; [reflexivity|].
  simpl. rewrite Hc. f_equal. exact IH.
Qed.

Lemma sub_special_filter (s : str) :
  all_ascii s ->
  filter not_hyphen (sub_special db s) = filter (word_char db) s.
Proof.
  induction 1 as [|c s Hc Hs IH]; [reflexivity|].
  simpl. rewrite (word_char_ascii _ Hc), IH.
  destruct (kept_char db c); reflexivity.
Qed.

Lemma sanitize_filename_eq (name : str) :
  sanitize_filename db name = lower db (hyphenated db name).
Proof. reflexivity. Qed.

Lemma hyphenated_Forall (P : codepoint -> Prop) (s : str) :
  Forall P (sub_special db s) -> Forall P (hyphenated db s).
Proof. intros H. apply strip_by_Forall, sub_hyphen_runs_Forall, H. Qed.

Lemma hyphenated_no_double (s : str) :
  no_double_hyphen (hyphenated db s) = true.
Proof.
  apply no_double_hyphen_rstrip, no_double_hyphen_lstrip,
    sub_hyphen_runs_no_double.
Qed.

Lemma sanitize_filename_ascii (s : str) :
  all_ascii s -> sanitize_filename db s = map ascii_tolower (hyphenated db s).
Proof.
  intros H. rewrite sanitize_filename_eq. apply lower_ascii.
  apply hyphenated_Forall, sub_special_ascii, H.
Qed.

Lemma sanitize_filename_slug (s : str) :
  all_ascii s -> Forall (fun c => slug_char c = true) (sanitize_filename db s).
Proof.
  intros H. rewrite (sanitize_filename_ascii _ H). apply Forall_map.
  assert (H1 : Forall (fun c => is_ascii c = true /\ kept_char db c = true)
                 (hyphenated db s)).
  { apply hyphenated_Forall. apply Forall_and.
    - apply sub_special_ascii, H.
    - apply sub_special_kept. }
  revert H1. apply Forall_impl. intros c [Ha Hk].
  apply kept_ascii_slug; assumption.
Qed.

Lemma sanitize_filename_no_double (s : str) :
  all_ascii s -> no_double_hyphen (sanitize_filename db s) = true.
Proof.
  intros H. rewrite (sanitize_filename_ascii _ H).
  rewrite (no_double_hyphen_map _ _ ascii_tolower_hyphen).
  apply hyphenated_no_double.
Qed.

Lemma sanitize_filename_stripped (s : str) :
  all_ascii s ->
  strip_by is_hyphen (sanitize_filename db s) = sanitize_filename db s.
Proof.
  intros H. rewrite (sanitize_filename_ascii _ H).
  rewrite (strip_by_map _ _ _ ascii_tolower_hyphen).
  unfold hyphenated. rewrite strip_by_idem. reflexivity.
Qed.

Lemma sanitize_filename_fixed (r : str) :
  Forall (fun c => slug_char c = true) r ->
  no_double_hyphen r = true ->
  strip_by is_hyphen r = r ->
  sanitize_filename db r = r.
Proof.
  intros Hslug Hnd Hst.
  assert (Ha : all_ascii r).
  { revert Hslug. apply Forall_impl. exact slug_char_ascii. }
  rewrite (sanitize_filename_ascii _ Ha). unfold hyphenated.
  rewrite sub_special_fixed.
  2:{ revert Hslug. apply Forall_impl. exact slug_char_kept. }
  rewrite (sub_hyphen_runs_fixed _ Hnd), Hst.
  rewrite <- (map_id r) at 2. apply map_ext_Forall.
  revert Hslug. apply Forall_impl. exact slug_char_tolower.
Qed.

End Sanitize.

Lemma startswith_hyphen (c : codepoint) (r : str) :
  startswith (lit "-") (c :: r) = is_hyphen c.
Proof.
  change (startswith (lit "-") (c :: r)) with ((45 =? c)%N && true).
  rewrite andb_true_r. apply N.eqb_sym.
Qed.

Lemma startswith_hyphens (c c' : codepoint) (r : str) :
  startswith (lit "--") (c :: c' :: r) = is_hyphen c && is_hyphen c'.
Proof.
  change (startswith (lit "--") (c :: c' :: r))
    with ((45 =? c)%N && ((45 =? c')%N && true)).
  rewrite andb_true_r, (N.eqb_sym 45 c), (N.eqb_sym 45 c'). reflexivity.
Qed.

Lemma no_lead_startswith_hyphen (r : str) :
  no_lead is_hyphen r -> startswith (lit "-") r = false.
Proof.
  destruct r as [|c r]; [reflexivity|]. intros H.
  rewrite startswith_hyphen. exact H.
Qed.

Lemma no_double_hyphen_contains (r : str) :
  no_double_hyphen r = true -> contains (lit "--") r = false.
Proof.
  induction r as [|c r IH]; [reflexivity|]. intros H.
  pose proof (no_double_hyphen_tail _ _ H) as Ht.
  change (contains (lit "--") (c :: r))
    with (startswith (lit "--") (c :: r) || contains (lit "--") r).
  rewrite (IH Ht), orb_false_r.
  destruct r as [|c' r].
  - change (startswith (lit "--") [c]) with ((45 =? c)%N && false).
    apply andb_false_r.
  - rewrite startswith_hyphens.
    simpl in H. apply andb_true_iff in H. destruct H as [H _].
    apply negb_true_iff in H. exact H.
Qed.

Lemma filter_not_hyphen_tolower (t : str) :
  filter not_hyphen (map ascii_tolower t)
  = map ascii_tolower (filter not_hyphen t).
Proof.
  induction t as [|c t IH]; [reflexivity|]. simpl.
  replace (not_hyphen (ascii_tolower c)) with (not_hyphen c)
    by (unfold not_hyphen; rewrite ascii_tolower_hyphen; reflexivity).
  destruct (not_hyphen c); simpl; [f_equal; exact IH | exact IH].
Qed.

(* ================================================================= *)
(** ** Runs of letters and digits *)

Section Pieces.
Variable sep : codepoint -> bool.









End Pieces.









Section Runs.
Variable db : UnicodeDB.

Lemma kept_word_char_hyphen (c : codepoint) :
  kept_char db c = kept_word_char db c || is_hyphen c.
Proof. reflexivity. Qed.

Lemma kept_word_char_not_hyphen (c : codepoint) :
  kept_word_char db c = true -> is_hyphen c = false.
Proof. unfold kept_word_char, in_cjk_range. class_facts. Qed.





(** *** Lower-casing, character by character *)

Lemma lower_from_Forall (P : codepoint -> Prop) (u : str) :
  Forall (fun c => Forall P (lowered_forms db c)) u ->
  forall before, Forall P (lower_from db before u).
Proof.
  induction 1 as [|c u Hc Hu IH]; intros before; [constructor|].
  cbn [lower_from]. apply Forall_app. split; [|apply IH].
  unfold lowered_forms in Hc. destruct (c =? 931)%N; [|exact Hc].
  inversion Hc as [|? ? H1 H2]; subst. inversion H2 as [|? ? H3 _]; subst.
  unfold lower_sigma. destruct (_ && _); constructor; auto.
Qed.

Lemma own_lower_forms (d : codepoint) :
  own_lower db d = true ->
  (d =? 931)%N = false /\ tolower_full db d = [d].
Proof.
  unfold own_lower, lower. cbn [lower_from]. rewrite app_nil_r.
  destruct (d =? 931)%N eqn:E.
  - apply N.eqb_eq in E. subst d. intros H. apply str_eqb_eq in H.
    unfold lower_sigma in H. cbn in H. discriminate H.
  - intros H. apply str_eqb_eq in H. split; [reflexivity | exact H].
Qed.

Lemma lower_from_own (r : str) :
  Forall (fun d => own_lower db d = true) r ->
  forall before, lower_from db before r = r.
Proof.
  induction 1 as [|d r Hd Hr IH]; intros before; [reflexivity|].
  destruct (own_lower_forms _ Hd) as [E1 E2].
  cbn [lower_from]. rewrite E1, E2, IH. reflexivity.
Qed.

Lemma lowered_forms_hyphen : lowered_forms db hyphen = [hyphen].
Proof. reflexivity. Qed.

Lemma own_lower_hyphen : own_lower db hyphen = true.
Proof. reflexivity. Qed.

Lemma tolower_full_ascii (c : codepoint) :
  is_ascii c = true ->
  (c =? 931)%N = false /\ tolower_full db c = [ascii_tolower c].
Proof.
  intros Ha. split; [revert Ha; class_facts|].
  unfold tolower_full. rewrite Ha. reflexivity.
Qed.

Lemma own_lower_ascii (c : codepoint) :
  is_ascii c = true -> own_lower db (ascii_tolower c) = true.
Proof.
  intros Ha. unfold own_lower, lower. cbn [lower_from]. rewrite app_nil_r.
  destruct (tolower_full_ascii _ (ascii_tolower_ascii _ Ha)) as [E1 E2].
  rewrite E1, E2. apply str_eqb_eq. f_equal. revert Ha. clear. class_facts.
Qed.

Lemma lowers_into_ascii (good : codepoint -> bool) (c : codepoint) :
  is_ascii c = true -> good c = true ->
  (forall d, good d = true -> good (ascii_tolower d) = true) ->
  lowers_into good db c = true /\ lowered_forms db c <> [].
Proof.
  intros Ha Hg Hgood. unfold lowers_into, lowered_forms.
  destruct (tolower_full_ascii _ Ha) as [E1 E2]. rewrite E1, E2.
  split; [|discriminate].
  cbn [forallb]. rewrite (Hgood _ Hg), (own_lower_ascii _ Ha). reflexivity.
Qed.

Lemma lowers_into_own (good : codepoint -> bool) (c : codepoint) :
  good c = true -> own_lower db c = true ->
  lowers_into good db c = true /\ lowered_forms db c <> [].
Proof.
  intros Hg Ho. destruct (own_lower_forms _ Ho) as [E1 E2].
  unfold lowers_into, lowered_forms. rewrite E1, E2.
  split; [|discriminate]. cbn [forallb]. rewrite Hg, Ho. reflexivity.
Qed.


Lemma kept_word_char_tolower (d : codepoint) :
  kept_word_char db d = true -> kept_word_char db (ascii_tolower d) = true.
Proof.
  unfold kept_word_char, in_cjk_range.
  destruct (ascii_upper d) eqn:E;
    [|unfold ascii_tolower; rewrite E; trivial].
  intros _. apply orb_true_iff. left. revert E. class_facts.
Qed.

End Runs.

(* ================================================================= *)
(** ** Sanitization: the shape of a name, idempotence *)

Lemma no_lead_app (p : codepoint -> bool) (x y : str) :
  x <> [] -> no_lead p (x ++ y) <-> no_lead p x.
Proof. destruct x as [|c x]; [congruence|]. intros _. reflexivity. Qed.

Lemma no_lead_Forall (p : codepoint -> bool) (x : str) :
  Forall (fun c => p c = false) x -> no_lead p x.
Proof. destruct 1; [exact I | assumption]. Qed.

Lemma no_lead_rev_cons (p : codepoint -> bool) (c : codepoint) (x : str) :
  x <> [] -> no_lead p (rev (c :: x)) <-> no_lead p (rev x).
Proof.
  intros H. simpl rev. apply no_lead_app.
  intros E. apply H. rewrite <- (rev_involutive x), E. reflexivity.
Qed.

Lemma no_double_hyphen_app_keep (f r : str) :
  Forall (fun d => is_hyphen d = false) f ->
  no_double_hyphen (f ++ r) = no_double_hyphen r.
Proof.
  induction 1 as [|d f Hd Hf IH]; [reflexivity|].
  cbn [app]. rewrite (no_double_hyphen_keep _ _ Hd). exact IH.
Qed.

Section SanitizeRuns.
Variable db : UnicodeDB.

Lemma lower_from_cons_shape (before : str) (c : codepoint) (u : str) :
  lowers_apart db c ->
  exists f,
    lower_from db before (c :: u) = f ++ lower_from db (c :: before) u
    /\ ((is_hyphen c = true /\ f = [c])
        \/ (is_hyphen c = false /\ f <> []
            /\ Forall (fun d => is_hyphen d = false) f)).
Proof.
  intros H. cbn [lower_from].
  destruct (is_hyphen c) eqn:E.
  - exists [c]. apply is_hyphen_eq in E. subst c. split; [reflexivity|].
    left. split; reflexivity.
  - destruct H as [H|[H1 H2]]; [congruence|].
    eexists. split; [reflexivity|]. right. split; [reflexivity|].
    unfold lowered_forms in H1, H2. destruct (c =? 931)%N; [|split; assumption].
    split; [discriminate|]. unfold lower_sigma.
    destruct (_ && _); repeat constructor.
Qed.

Lemma lower_from_nonempty (u : str) :
  Forall (lowers_apart db) u -> u <> [] ->
  forall before, lower_from db before u <> [].
Proof.
  intros H Hne before. destruct H as [|c u Hc Hu]; [congruence|].
  destruct (lower_from_cons_shape before c u Hc) as (f & -> & [[_ ->]|(_ & Hf & _)]).
  - discriminate.
  - destruct f; [congruence | discriminate].
Qed.

Lemma lower_from_no_lead (u : str) :
  Forall (lowers_apart db) u -> no_lead is_hyphen u ->
  forall before, no_lead is_hyphen (lower_from db before u).
Proof.
  intros H Hl before. destruct H as [|c u Hc Hu]; [exact I|].
  simpl in Hl.
  destruct (lower_from_cons_shape before c u Hc)
    as (f & -> & [[E _]|(_ & Hf & Hall)]); [congruence|].
  apply (no_lead_app _ _ _ Hf). apply no_lead_Forall, Hall.
Qed.

Lemma lower_from_no_double (u : str) :
  Forall (lowers_apart db) u -> no_double_hyphen u = true ->
  forall before, no_double_hyphen (lower_from db before u) = true.
Proof.
  induction 1 as [|c u Hc Hu IH]; intros Hnd before; [reflexivity|].
  pose proof (no_double_hyphen_tail _ _ Hnd) as Hnd'.
  destruct (lower_from_cons_shape before c u Hc)
    as (f & -> & [[E ->]|(_ & Hf & Hall)]).
  - cbn [app]. rewrite no_double_hyphen_after; [apply IH, Hnd' | exact E |].
    apply lower_from_no_lead; [exact Hu|].
    destruct u as [|c' u']; [exact I|]. simpl in Hnd. rewrite E in Hnd.
    apply andb_true_iff in Hnd. destruct Hnd as [Hnd _].
    apply negb_true_iff in Hnd. exact Hnd.
  - rewrite (no_double_hyphen_app_keep _ _ Hall). apply IH, Hnd'.
Qed.

Lemma lower_from_no_trail (u : str) :
  Forall (lowers_apart db) u -> no_lead is_hyphen (rev u) ->
  forall before, no_lead is_hyphen (rev (lower_from db before u)).
Proof.
  induction 1 as [|c u Hc Hu IH]; intros Hr before; [exact I|].
  destruct (lower_from_cons_shape before c u Hc) as (f & -> & Hf).
  destruct u as [|c' u'].
  - cbn [lower_from]. rewrite app_nil_r.
    destruct Hf as [[E _]|(_ & _ & Hall)].
    + simpl in Hr. congruence.
    + apply no_lead_Forall, Forall_rev, Hall.
  - rewrite rev_app_distr. apply no_lead_app.
    + intros E. apply (lower_from_nonempty (c' :: u') Hu) with (before := c :: before);
        [discriminate|].
      rewrite <- (rev_involutive (lower_from _ _ _)), E. reflexivity.
    + apply IH. apply (no_lead_rev_cons _ c (c' :: u')); [discriminate | exact Hr].
Qed.

(** What holds of the characters that [sanitize_filename] keeps holds of
    the name before its lower-casing, if it holds of the hyphen. *)
Lemma hyphenated_kept (P : codepoint -> Prop) (s : str) :
  P hyphen ->
  Forall (fun c => kept_word_char db c = true -> P c) s ->
  Forall P (hyphenated db s).
Proof.
  intros Hh H. apply hyphenated_Forall.
  induction H as [|c s Hc Hs IH]; [constructor|].
  cbn [sub_special map]. constructor; [|exact IH].
  rewrite kept_word_char_hyphen.
  destruct (kept_word_char db c) eqn:E; cbn [orb]; [exact (Hc eq_refl)|].
  destruct (is_hyphen c) eqn:E'; [|exact Hh].
  apply is_hyphen_eq in E'. subst c. exact Hh.
Qed.

Lemma lowers_into_Forall (good : codepoint -> bool) (c : codepoint) :
  lowers_into good db c = true ->
  Forall (fun d => good d = true /\ own_lower db d = true)
    (lowered_forms db c).
Proof.
  unfold lowers_into. intros H. apply Forall_forall. intros d Hd.
  apply andb_true_iff. revert d Hd. apply forallb_forall. exact H.
Qed.

(** A string of kept characters that are their own lower case, with no
    two hyphens in a row and none at either end, is its own sanitized
    name. *)
Lemma sanitize_filename_fixed_own (r : str) :
  Forall (fun d => kept_char db d = true /\ own_lower db d = true) r ->
  no_double_hyphen r = true ->
  no_lead is_hyphen r -> no_lead is_hyphen (rev r) ->
  sanitize_filename db r = r.
Proof.
  intros H Hnd Hl Ht. unfold sanitize_filename. cbv zeta.
  rewrite sub_special_fixed by (revert H; apply Forall_impl; tauto).
  rewrite (sub_hyphen_runs_fixed _ Hnd), (strip_by_fixed _ _ Hl Ht).
  apply lower_from_own. revert H. apply Forall_impl. tauto.
Qed.

End SanitizeRuns.




(** C6 (as amended). Sanitization is idempotent on every string whose
    kept characters, the hyphen apart, are ASCII, or their own lower
    case, or turned by lower-casing into one or more kept characters,
    none a hyphen, that are their own lower case: every ASCII string, and
    every string of ASCII characters and of letters that are their own
    lower case, those of the range U+4E00..U+9FFF among them. *)
Theorem C6_sanitize_filename_idempotent (db : UnicodeDB) (s : str) :
  Forall (fun c => kept_word_char db c = true ->
                   is_ascii c = true
                   \/ own_lower db c = true
                   \/ (lowers_into (kept_word_char db) db c = true
                       /\ lowered_forms db c <> [])) s ->
  sanitize_filename db (sanitize_filename db s) = sanitize_filename db s.
Proof.
  intros H.
  assert (Hgood : Forall
            (fun c => lowered_forms db c <> []
                      /\ Forall (fun d => kept_char db d = true
                                          /\ is_hyphen d = is_hyphen c
                                          /\ own_lower db d = true)
                           (lowered_forms db c))
            (hyphenated db s)).
  { apply hyphenated_kept.
    - rewrite lowered_forms_hyphen. split; [discriminate|].
      constructor; [|constructor]. repeat split.
    - revert H. apply Forall_impl. intros c Hc Hk.
      rewrite (kept_word_char_not_hyphen db _ Hk).
      assert (Hl : lowers_into (kept_word_char db) db c = true
                   /\ lowered_forms db c <> []).
      { destruct (Hc Hk) as [Ha|[Ho|Hl]]; [| |exact Hl].
        - exact (lowers_into_ascii db _ c Ha Hk
                   (kept_word_char_tolower db)).
        - exact (lowers_into_own db _ c Hk Ho). }
      destruct Hl as [Hl Hne]. split; [exact Hne|].
      apply lowers_into_Forall in Hl. revert Hl. apply Forall_impl.
      intros d [H1 H2]. rewrite kept_word_char_hyphen, H1.
      split; [reflexivity|].
      split; [exact (kept_word_char_not_hyphen db _ H1) | exact H2]. }
  assert (Hapart : Forall (lowers_apart db) (hyphenated db s)).
  { revert Hgood. apply Forall_impl. intros c [Hne Hall].
    destruct (is_hyphen c) eqn:E; [left; exact E|].
    right. split; [exact Hne|]. revert Hall. apply Forall_impl. tauto. }
  rewrite (sanitize_filename_eq db s). unfold lower.
  apply sanitize_filename_fixed_own.
  - apply lower_from_Forall. revert Hgood. apply Forall_impl.
    intros c [_ Hall]. revert Hall. apply Forall_impl. tauto.
  - apply lower_from_no_double; [exact Hapart | apply hyphenated_no_double].
  - apply lower_from_no_lead; [exact Hapart | apply strip_by_no_lead].
  - apply lower_from_no_trail; [exact Hapart | apply strip_by_no_trail].
Qed.

Lemma C6_witness :
  sanitize_filename unicode_excerpt
    (lit "--Create  Chat_Completion? " ++ [20013; 25991]%N)
  = lit "create-chat_completion-" ++ [20013; 25991]%N
  /\ sanitize_filename unicode_excerpt
       (sanitize_filename unicode_excerpt
          (lit "--Create  Chat_Completion? " ++ [20013; 25991]%N))
     = sanitize_filename unicode_excerpt
         (lit "--Create  Chat_Completion? " ++ [20013; 25991]%N).
Proof.
  split; [reflexivity|].
  apply (C6_sanitize_filename_idempotent unicode_excerpt).
  repeat (constructor;
          [first [intros _; left; reflexivity
                 | intros _; right; left; reflexivity
                 | intros H; discriminate H]|]).
  constructor.
Defined.

(** C6 (as stated) fails on U+0130: it is a letter and stays, its lower
    case is [i] followed by the combining dot U+0307, which is no word
    character and which a second pass turns into a hyphen and strips. *)
Lemma C6_counterexample :
  sanitize_filename unicode_excerpt [304%N] = [105%N; 775%N]
  /\ sanitize_filename unicode_excerpt
       (sanitize_filename unicode_excerpt [304%N]) = [105%N]
  /\ sanitize_filename unicode_excerpt
       (sanitize_filename unicode_excerpt [304%N])
     <> sanitize_filename unicode_excerpt [304%N].
Proof. repeat split; try reflexivity. vm_compute. discriminate. Qed.

(* ================================================================= *)
(** ** Dictionaries *)

Section DictFacts.
Variable V : Type.
Implicit Types (d : Dict.dict V) (k : str) (v : V).

Lemma dict_get_set_same k v d : Dict.get k (Dict.set k v d) = Some v.
Proof.
  induction d as [|[k' v'] d IH]; simpl.
  - rewrite str_eqb_refl. reflexivity.
  - destruct (str_eqb k k') eqn:E; simpl; rewrite E; [reflexivity | exact IH].
Qed.

Lemma dict_get_In k v d :
  Dict.get k d = Some v -> exists k', In (k', v) d.
Proof.
  induction d as [|[k' v'] d IH]; simpl; [discriminate|].
  destruct (str_eqb k k').
  - intros H; injection H as ->. exists k'. left; reflexivity.
  - intros H. destruct (IH H) as [k'' Hk]. exists k''. right; exact Hk.
Qed.

Lemma dict_set_In k v d k' v' :
  In (k', v') (Dict.set k v d) -> In (k', v') d \/ v' = v.
Proof.
  induction d as [|[k0 v0] d IH]; simpl.
  - intros [H|[]]. injection H as _ <-. right; reflexivity.
  - destruct (str_eqb k k0); simpl.
    + intros [H|H]; [injection H as _ <-; right; reflexivity | left; right; exact H].
    + intros [H|H]; [left; left; exact H|].
      destruct (IH H) as [H'|H']; [left; right; exact H' | right; exact H'].
Qed.

Lemma getitem_after_ensure k (dflt : V) d :
  exists v,
    getitem k (if negb (Dict.mem k d) then Dict.set k dflt d else d) = Ok v
    /\ (v = dflt \/ exists k', In (k', v) d).
Proof.
  unfold getitem, Dict.mem. destruct (Dict.get k d) as [v|] eqn:E; simpl.
  - rewrite E. exists v. split; [reflexivity|]. right. exact (dict_get_In _ _ _ E).
  - rewrite dict_get_set_same. exists dflt. split; [reflexivity | left; reflexivity].
Qed.

End DictFacts.

(* ================================================================= *)
(** ** The extractor never fails *)

Lemma store_operation_total ps path method op :
  exists ps', store_operation ps path method op = Ok ps'.
Proof.
  unfold store_operation. cbv zeta.
  match goal with
  | |- context [bind ?g _] =>
      assert (Hg : exists ms : Methods, g = Ok ms
                   /\ (ms = [] \/ exists k', In (k', ms) ps))
        by exact (getitem_after_ensure _ path ([] : Methods) ps)
  end.
  destruct Hg as (ms & E & _).
  rewrite E. simpl. eexists; reflexivity.
Qed.

Lemma store_operation_ops (P : Operation -> Prop) ps path method op ps' :
  ops_all P ps -> P op ->
  store_operation ps path method op = Ok ps' -> ops_all P ps'.
Proof.
  intros Hps Hop. unfold store_operation. cbv zeta.
  match goal with
  | |- context [bind ?g _] =>
      assert (Hg : exists ms : Methods, g = Ok ms
                   /\ (ms = [] \/ exists k', In (k', ms) ps))
        by exact (getitem_after_ensure _ path ([] : Methods) ps)
  end.
  destruct Hg as (ms & E & Hms).
  rewrite E. simpl. intros H; injection H as <-.
  assert (Hms' : forall m o, In (m, o) ms -> P o).
  { destruct Hms as [->|[k' Hk]]; [intros ? ? []|].
    intros m o Hin. exact (Hps _ _ _ _ Hk Hin). }
  assert (Hps1 : ops_all P
            (if negb (Dict.mem path ps) then Dict.set path [] ps else ps)).
  { destruct (negb (Dict.mem path ps)); [|exact Hps].
    intros p ms0 m o Hin Hin'. apply dict_set_In in Hin.
    destruct Hin as [Hin | ->]; [exact (Hps _ _ _ _ Hin Hin') | destruct Hin']. }
  intros p ms0 m o Hin Hin'. apply dict_set_In in Hin.
  destruct Hin as [Hin | ->]; [exact (Hps1 _ _ _ _ Hin Hin')|].
  apply dict_set_In in Hin'. destruct Hin' as [Hin' | ->];
    [exact (Hms' _ _ Hin') | exact Hop].
Qed.

Lemma finalize_total st : exists ps, finalize st = Ok ps.
Proof.
  unfold finalize. destruct (current_path st), (current_method st);
    try (eexists; reflexivity).
  destruct (_ && _); [apply store_operation_total | eexists; reflexivity].
Qed.

Lemma finalize_ops (P : Operation -> Prop) st ps :
  ops_all P (paths st) -> P (current_operation st) ->
  finalize st = Ok ps -> ops_all P ps.
Proof.
  intros Hps Hop. unfold finalize.
  destruct (current_path st), (current_method st);
    try (intros H; injection H as <-; exact Hps).
  destruct (_ && _); [|intros H; injection H as <-; exact Hps].
  apply store_operation_ops; assumption.
Qed.

Lemma step_total st line : exists st', step st line = Ok st'.
Proof.
  unfold step. destruct (finalize_total st) as [ps E]. rewrite E. simpl.
  repeat match goal with
  | |- context [if ?b then _ else _] => destruct b
  end; eexists; reflexivity.
Qed.

Lemma run_lines_total lines : forall st, exists st', run_lines st lines = Ok st'.
Proof.
  induction lines as [|line lines IH]; intros st; simpl.
  - eexists; reflexivity.
  - destruct (step_total st line) as [st1 E]. rewrite E. simpl. apply IH.
Qed.

Lemma finish_total st : exists spec, finish st = Ok spec.
Proof.
  unfold finish. destruct (_ && _); [apply finalize_total | eexists; reflexivity].
Qed.

Lemma parse_yaml_basic_total content :
  exists spec, parse_yaml_basic content = Ok spec.
Proof.
  unfold parse_yaml_basic.
  destruct (run_lines_total (split_on 10%N content) initial_state) as [st E].
  rewrite E. simpl. apply finish_total.
Qed.

(** Every way [step] can end, with the tests it made. *)
Ltac step_cases H :=
  unfold step, commit_open_tags in H; cbv zeta in H;
  repeat match type of H with
  | context [if ?b then _ else _] => destruct b eqn:?
  end;
  try match type of H with
  | context [finalize ?st] =>
      let ps := fresh "ps" in
      let E := fresh "Efin" in
      destruct (finalize st) as [ps| |] eqn:E; simpl in H; try discriminate H
  end;
  injection H as <-.

Lemma step_paths (P : Operation -> Prop) st line st' :
  ops_all P (paths st) -> P (current_operation st) ->
  step st line = Ok st' -> ops_all P (paths st').
Proof.
  intros Hps Hop H.
  step_cases H; simpl; try exact Hps;
    exact (finalize_ops P st _ Hps Hop Efin).
Qed.

Section Invariant.
Variable P : Operation -> Prop.
Variable I : ParserState -> Prop.
Variable ok : str -> Prop.
Hypothesis I_initial : I initial_state.
Hypothesis I_op : forall st, I st -> P (current_operation st).
Hypothesis I_commit : forall st, I st -> P (current_operation (commit_open_tags st)).
Hypothesis I_step :
  forall st line st', ok line -> I st -> step st line = Ok st' -> I st'.

Lemma run_lines_invariant lines :
  forall st st',
    Forall ok lines -> I st -> ops_all P (paths st) ->
    run_lines st lines = Ok st' -> I st' /\ ops_all P (paths st').
Proof.
  induction lines as [|line lines IH]; intros st st' Hok HI Hps; simpl.
  - intros H; injection H as <-. split; assumption.
  - inversion Hok as [|? ? Hline Hrest]; subst.
    destruct (step st line) as [st1| |] eqn:E; simpl; try discriminate.
    apply IH; [exact Hrest | exact (I_step _ _ _ Hline HI E)|].
    exact (step_paths P _ _ _ Hps (I_op _ HI) E).
Qed.

Lemma parse_yaml_basic_invariant content spec :
  Forall ok (lines_of content) ->
  parse_yaml_basic content = Ok spec -> ops_all P spec.
Proof.
  intros Hok. unfold parse_yaml_basic. fold (lines_of content).
  destruct (run_lines initial_state (lines_of content)) as [st| |] eqn:E;
    simpl; try discriminate.
  destruct (run_lines_invariant _ _ _ Hok I_initial (fun _ _ _ _ H => match H with end) E)
    as [HI Hps].
  unfold finish. destruct (_ && _).
  - apply finalize_ops; [|apply I_commit, HI].
    unfold commit_open_tags. destruct (in_tags st); exact Hps.
  - intros H; injection H as <-. exact Hps.
Qed.

End Invariant.

Lemma no_summary_line_invariant content spec :
  Forall (fun line => startswith (lit "summary:") (strip line) = false)
    (lines_of content) ->
  parse_yaml_basic content = Ok spec ->
  ops_all (fun op => op_summary op = None) spec.
Proof.
  apply (parse_yaml_basic_invariant _
           (fun st => op_summary (current_operation st) = None)).
  - reflexivity.
  - auto.
  - intros st H. unfold commit_open_tags. destruct (in_tags st); exact H.
  - intros st line st' Hline HI H. cbv beta in Hline, HI.
    step_cases H; simpl; try reflexivity; try exact HI; congruence.
Qed.

Lemma no_description_line_invariant content spec :
  Forall (fun line => startswith (lit "description:") (strip line) = false)
    (lines_of content) ->
  parse_yaml_basic content = Ok spec ->
  ops_all (fun op => op_description op = None) spec.
Proof.
  apply (parse_yaml_basic_invariant _
           (fun st => op_description (current_operation st) = None)).
  - reflexivity.
  - auto.
  - intros st H. unfold commit_open_tags. destruct (in_tags st); exact H.
  - intros st line st' Hline HI H. cbv beta in Hline, HI.
    step_cases H; simpl; try reflexivity; try exact HI; congruence.
Qed.

Lemma no_tags_line_invariant content spec :
  Forall (fun line => str_eqb (strip line) (lit "tags:") = false)
    (lines_of content) ->
  parse_yaml_basic content = Ok spec ->
  ops_all (fun op => op_tags op = None) spec.
Proof.
  apply (parse_yaml_basic_invariant _
           (fun st => op_tags (current_operation st) = None
                      /\ in_tags st = false)).
  - split; reflexivity.
  - intros st [H _]; exact H.
  - intros st [H1 H2]. unfold commit_open_tags. rewrite H2. exact H1.
  - intros st line st' Hline [H1 H2] H. cbv beta in Hline.
    step_cases H; simpl;
      try (split; [first [reflexivity | exact H1]
                  | first [reflexivity | assumption]]);
      congruence.
Qed.

Lemma step_unrecognized st line :
  recognized st (strip line) = false -> step st line = Ok st.
Proof.
  unfold recognized. intros H.
  repeat (apply orb_false_iff in H; destruct H as [H ?]).
  unfold step. cbv zeta.
  repeat match goal with
  | E : ?b = false |- context [if ?b then _ else _] => rewrite E
  end.
  destruct (in_tags st); simpl in *.
  - apply negb_false_iff in H2. rewrite H2. apply str_eqb_eq in H2.
    rewrite H2. reflexivity.
  - rewrite andb_false_r. reflexivity.
Qed.

(* ================================================================= *)
(** ** Markers and fields *)

Lemma startswith_app (pre s : str) :
  startswith pre s = true -> exists rest, s = pre ++ rest.
Proof.
  revert s. induction pre as [|a pre IH]; intros s; simpl.
  - intros _. exists s. reflexivity.
  - destruct s as [|b s]; [discriminate|]. intros H.
    apply andb_true_iff in H. destruct H as [H1 H2].
    apply N.eqb_eq in H1. subst b.
    destruct (IH _ H2) as [rest ->]. exists rest. reflexivity.
Qed.

(** A trimmed line has no space in front. *)
Lemma strip_no_leading_space (line : str) :
  startswith (lit " ") (strip line) = false.
Proof.
  pose proof (strip_by_no_lead isspace line) as H. fold (strip line) in H.
  destruct (strip line) as [|c r]; [reflexivity|]. simpl in H.
  change (startswith (lit " ") (c :: r)) with ((32 =? c)%N && true).
  rewrite andb_true_r. destruct (N.eqb_spec 32 c) as [<-|]; [|reflexivity].
  discriminate H.
Qed.

(** Leading spaces do not reach the tests of the loop. *)
Lemma step_indented (st : ParserState) (line : str) :
  step st (lit " " ++ line) = step st line.
Proof. reflexivity. Qed.

Lemma method_marker_In (line_stripped : str) :
  is_method_marker line_stripped = true <-> In line_stripped method_markers.
Proof. apply existsb_str_eqb_In. Qed.

(** C3 (as amended). A line is a method marker exactly when its trimmed
    form equals one of [get:], [post:], [put:], [delete:], [patch:] as
    written, in lower case: such a line stores the operation in progress
    and opens the method named before the colon, and no other line opens a
    method. *)
Theorem C3_method_marker (st : ParserState) (line : str) :
  (is_method_marker (strip line) = true <-> In (strip line) method_markers)
  /\ (In (strip line) method_markers ->
      In (drop_last (strip line)) http_methods
      /\ exists ps,
           finalize st = Ok ps
           /\ step st line
              = Ok {| paths := ps; current_path := current_path st;
                      current_method := Some (drop_last (strip line));
                      current_operation := empty_operation;
                      in_tags := false; tags := [] |})
  /\ (~ In (strip line) method_markers ->
      forall st', step st line = Ok st' ->
        current_method st' = current_method st \/ current_method st' = None).
Proof.
  split; [apply method_marker_In|]. split.
  - intros H. destruct (finalize_total st) as [ps E].
    assert (Hm : is_method_marker (strip line) = true)
      by (apply method_marker_In; exact H).
    assert (Hp : is_path_marker (strip line) = false).
    { simpl in H. decompose [or] H; try contradiction;
        match goal with Heq : _ = strip line |- _ => rewrite <- Heq end;
        reflexivity. }
    split.
    + simpl in H. decompose [or] H; try contradiction;
        match goal with Heq : _ = strip line |- _ => rewrite <- Heq end;
        simpl; tauto.
    + exists ps. split; [exact E|].
      unfold step. cbv zeta. rewrite Hp, Hm, E. reflexivity.
  - intros Hn st' H.
    assert (Hm : is_method_marker (strip line) = false).
    { destruct (is_method_marker (strip line)) eqn:Em; [|reflexivity].
      apply method_marker_In in Em. contradiction. }
    step_cases H; simpl; auto; congruence.
Qed.

Lemma C3_witness :
  In (strip (lit "    post:")) method_markers
  /\ step open_tag_block (lit "    post:")
     = Ok {| paths := [(lit "/a", [(lit "get", empty_operation)])];
             current_path := Some (lit "/a");
             current_method := Some (lit "post");
             current_operation := empty_operation;
             in_tags := false; tags := [] |}.
Proof.
  assert (H : In (strip (lit "    post:")) method_markers)
    by (vm_compute; tauto).
  split; [exact H|].
  destruct (proj1 (proj2 (C3_method_marker open_tag_block (lit "    post:"))) H)
    as (_ & ps & E & Hstep).
  rewrite Hstep. vm_compute in E. injection E as <-. reflexivity.
Defined.

(** C3 (as stated) fails: no lower-casing is made, [GET:] is no method
    marker, and a text whose only method line is [GET:] holds no
    operation, whereas [get:] gives one. *)
Lemma C3_counterexample :
  is_method_marker (strip (lit "GET:")) = false
  /\ parse_yaml_basic (text ["/a:"; "GET:"]) = Ok []
  /\ parse_yaml_basic (text ["/a:"; "get:"])
     = Ok [(lit "/a", [(lit "get", empty_operation)])].
Proof. repeat split. Qed.

Lemma commit_open_tags_open (st : ParserState) :
  in_tags st = true ->
  commit_open_tags st
  = {| paths := paths st; current_path := current_path st;
       current_method := current_method st;
       current_operation := set_tags (tags st) (current_operation st);
       in_tags := false; tags := tags st |}.
Proof. intros H. unfold commit_open_tags. rewrite H. reflexivity. Qed.

(** What a line that is no path or method marker does while a tag block
    is open. *)
Lemma step_in_tag_block (st : ParserState) (line : str) :
  in_tags st = true ->
  is_path_marker (strip line) = false ->
  is_method_marker (strip line) = false ->
  step st line =
  if str_eqb (strip line) (lit "tags:") then
    Ok {| paths := paths st; current_path := current_path st;
          current_method := current_method st;
          current_operation := current_operation st;
          in_tags := true; tags := [] |}
  else if startswith (lit "- ") (strip line) then
    Ok {| paths := paths st; current_path := current_path st;
          current_method := current_method st;
          current_operation := current_operation st;
          in_tags := in_tags st;
          tags := tags st ++ [strip (slice_from 2 (strip line))] |}
  else if str_eqb (strip line) [] then Ok st
  else Ok (commit_open_tags st).
Proof.
  intros Hin Hp Hm. unfold step. cbv zeta.
  rewrite Hp, Hm, strip_no_leading_space.
  destruct (str_eqb (strip line) (lit "tags:")); [reflexivity|].
  rewrite Hin. cbn [andb negb].
  destruct (startswith (lit "- ") (strip line)); [reflexivity|].
  destruct (str_eqb (strip line) []) eqn:Ee; [|reflexivity].
  apply str_eqb_eq in Ee. rewrite Ee. reflexivity.
Qed.

(** C2. The code at the failing inputs. A method marker (or a path
    marker) that ends an open tag block stores the operation without the
    tags gathered so far, which are lost, although the end of the input
    stores them. An indented line that is no list item closes the block,
    for the test is made on the trimmed line: the item after it is lost.
    And a [summary:] line that ends the block only closes it: its value
    is lost. *)
Theorem C2_tags_lost_at_marker :
  parse_yaml_basic
    (text ["paths:"; "  /a:"; "    get:"; "      tags:"; "        - x";
           "    post:"; "      summary: s"])
  = Ok [(lit "/a", [(lit "get", empty_operation);
                    (lit "post", set_summary (lit "s") empty_operation)])]
  /\ parse_yaml_basic
       (text ["paths:"; "  /a:"; "    get:"; "      tags:"; "        - x";
              "  /b:"])
     = Ok [(lit "/a", [(lit "get", empty_operation)])]
  /\ parse_yaml_basic
       (text ["paths:"; "  /a:"; "    get:"; "      tags:"; "        - x"])
     = Ok [(lit "/a", [(lit "get", set_tags [lit "x"] empty_operation)])]
  /\ parse_yaml_basic
       (text ["paths:"; "  /a:"; "    get:"; "      tags:"; "        - x";
              "          continued"; "        - y"])
     = Ok [(lit "/a", [(lit "get", set_tags [lit "x"] empty_operation)])]
  /\ parse_yaml_basic
       (text ["paths:"; "  /a:"; "    get:"; "      tags:"; "        - x";
              "      summary: s"])
     = Ok [(lit "/a", [(lit "get", set_tags [lit "x"] empty_operation)])].
Proof. repeat split. Qed.

(** The prefix [description:] has 12 characters: the value kept after 11
    of them begins with its colon, which shields the quotes in front. *)
Lemma description_value_keeps_colon (line_stripped : str) :
  startswith (lit "description:") line_stripped = true ->
  startswith (lit ":") (slice_from 11 line_stripped) = true.
Proof.
  intros H. destruct (startswith_app _ _ H) as [rest ->]. reflexivity.
Qed.

(** C7. The code at the failing input. The description keeps the colon
    of its prefix and the quote that follows it, where the summary of the
    same value is the value alone. And a [description:] line that ends a
    tag block only closes it: the description stays unset. *)
Theorem C7_description_keeps_colon :
  parse_yaml_basic
    (text ["paths:"; "  /a:"; "    get:";
           "      description: 'Lists models'"])
  = Ok [(lit "/a",
         [(lit "get",
           set_description (lit ": 'Lists models") empty_operation)])]
  /\ parse_yaml_basic
       (text ["paths:"; "  /a:"; "    get:"; "      summary: 'Lists models'"])
     = Ok [(lit "/a",
            [(lit "get", set_summary (lit "Lists models") empty_operation)])]
  /\ parse_yaml_basic
       (text ["paths:"; "  /a:"; "    get:"; "      tags:"; "        - x";
              "      description: d"])
     = Ok [(lit "/a", [(lit "get", set_tags [lit "x"] empty_operation)])].
Proof. repeat split. Qed.

(* ================================================================= *)
(** ** Unique filenames *)

Lemma lit_inj (a b : string) : lit a = lit b -> a = b.
Proof.
  unfold lit. revert b. induction a as [|x a IH]; intros [|y b]; simpl;
    try discriminate; [reflexivity|].
  intros H. injection H as Hx Hab.
  rewrite <- (ascii_N_embedding x), <- (ascii_N_embedding y), Hx.
  f_equal. apply IH, Hab.
Qed.

Lemma str_of_N_inj (j k : N) : str_of_N j = str_of_N k -> j = k.
Proof.
  unfold str_of_N. intros H. apply lit_inj in H.
  apply DecimalN.Unsigned.to_uint_inj.
  pose proof (NilEmpty.usu (N.to_uint j)) as Hj.
  pose proof (NilEmpty.usu (N.to_uint k)) as Hk.
  rewrite H in Hj. congruence.
Qed.

Lemma suffixed_inj (base : str) (j k : N) :
  suffixed base j = suffixed base k -> j = k.
Proof.
  unfold suffixed. intros H. apply app_inv_head in H.
  apply app_inv_head in H. apply str_of_N_inj, H.
Qed.

Lemma suffixed_neq_base (base : str) (k : N) : suffixed base k <> base.
Proof.
  unfold suffixed. intros H. apply (f_equal (@List.length _)) in H.
  rewrite !length_app in H. simpl in H. lia.
Qed.

Lemma filename_taken_In (ebc : Categories) (f : str) :
  filename_taken ebc f = true <-> In f (assigned_filenames ebc).
Proof.
  unfold filename_taken. rewrite existsb_exists. split.
  - intros (x & Hx & E). apply str_eqb_eq in E. subst; exact Hx.
  - intros H. exists f. split; [exact H | apply str_eqb_refl].
Qed.

Section UniqueLoop.
Variable ebc : Categories.
Variable base : str.

(** The loop stops before the bound: the candidates it has found taken
    are distinct assigned names. *)
Lemma unique_loop_stops (fuel : nat) :
  forall (seen : list str) (f : str) (c : N),
    NoDup seen -> incl seen (assigned_filenames ebc) -> ~ In f seen ->
    (forall k, (c <= k)%N -> ~ In (suffixed base k) seen) ->
    (forall k, (c <= k)%N -> suffixed base k <> f) ->
    List.length (assigned_filenames ebc) < List.length seen + fuel ->
    exists r, unique_loop fuel ebc base f c = Ok r.
Proof.
  induction fuel as [|fuel IH]; intros seen f c Hnd Hincl Hf Hk Hkf Hlen.
  - pose proof (NoDup_incl_length Hnd Hincl). lia.
  - simpl. destruct (filename_taken ebc f) eqn:E; [|eexists; reflexivity].
    apply filename_taken_In in E.
    apply (IH (f :: seen)).
    + constructor; assumption.
    + intros x [<-|Hx]; [exact E | apply Hincl, Hx].
    + intros [H|H]; [apply (Hkf c); [lia | symmetry; exact H]
                    | apply (Hk c); [lia | exact H]].
    + intros k Hck [H|H]; [apply (Hkf k); [lia | symmetry; exact H]
                          | apply (Hk k); [lia | exact H]].
    + intros k Hck H. apply suffixed_inj in H. lia.
    + simpl. lia.
Qed.

(** What the loop returns: the first candidate that is not taken. *)
Lemma unique_loop_first (fuel : nat) :
  forall (f : str) (c : N) (r : str),
    unique_loop fuel ebc base f c = Ok r ->
    filename_taken ebc r = false
    /\ (r = f
        \/ filename_taken ebc f = true
           /\ exists k, (c <= k)%N /\ r = suffixed base k
                /\ forall j, (c <= j < k)%N ->
                     filename_taken ebc (suffixed base j) = true).
Proof.
  induction fuel as [|fuel IH]; intros f c r; simpl; [discriminate|].
  destruct (filename_taken ebc f) eqn:E.
  - intros H. destruct (IH _ _ _ H) as [Hr Hcase]. split; [exact Hr|].
    right. split; [reflexivity|].
    destruct Hcase as [->|(Ht & k & Hk & -> & Hj)].
    + exists c. split; [lia|]. split; [reflexivity|]. intros j Hjc. lia.
    + exists k. split; [lia|]. split; [reflexivity|]. intros j Hjc.
      destruct (N.eq_dec j c) as [->|Hne]; [exact Ht | apply Hj; lia].
  - intros H; injection H as <-. split; [exact E | left; reflexivity].
Qed.

End UniqueLoop.

Lemma unique_filename_total (ebc : Categories) (base : str) :
  exists r, unique_filename ebc base = Ok r.
Proof.
  unfold unique_filename.
  apply (unique_loop_stops ebc base _ []).
  - constructor.
  - intros x [].
  - intros [].
  - intros k _ [].
  - intros k _. apply suffixed_neq_base.
  - simpl. lia.
Qed.

(** C4 (as amended). Filename uniqueness is keyed by the filename alone,
    over the endpoints of all categories: the loop always ends, its result
    is the name of no endpoint assigned so far in any category, it is the
    base name exactly when no endpoint of any category has that name, and
    otherwise it is the base name with the least suffix -1, -2, ... that
    is free. *)
Theorem C4_filename_unique_across_categories (ebc : Categories) (base : str) :
  exists filename,
    unique_filename ebc base = Ok filename
    /\ (forall category endpoints endpoint,
          In (category, endpoints) ebc -> In endpoint endpoints ->
          ep_filename endpoint <> filename)
    /\ (filename = base <-> ~ In base (assigned_filenames ebc))
    /\ (In base (assigned_filenames ebc) ->
        exists k, (1 <= k)%N /\ filename = suffixed base k
          /\ forall j, (1 <= j < k)%N ->
               In (suffixed base j) (assigned_filenames ebc)).
Proof.
  destruct (unique_filename_total ebc base) as [r E]. exists r.
  split; [exact E|].
  destruct (unique_loop_first _ _ _ _ _ _ E) as [Hr Hcase].
  assert (Hnot : ~ In r (assigned_filenames ebc)).
  { intros H. apply filename_taken_In in H. congruence. }
  split; [|split].
  - intros category endpoints endpoint Hc He Heq. apply Hnot.
    unfold assigned_filenames. rewrite <- Heq. apply in_map.
    apply in_concat. exists endpoints. split; [|exact He].
    unfold Dict.values. apply (in_map snd) in Hc. exact Hc.
  - split.
    + intros ->. exact Hnot.
    + intros Hb. destruct Hcase as [->|[Ht _]]; [reflexivity|].
      apply filename_taken_In in Ht. contradiction.
  - intros Hb. destruct Hcase as [->|(_ & k & Hk & -> & Hj)];
      [contradiction|].
    exists k. split; [exact Hk|]. split; [reflexivity|].
    intros j Hjk. apply filename_taken_In, Hj, Hjk.
Qed.

Lemma C4_witness :
  In (lit "list") (assigned_filenames [(lit "openai-gpt", [chat_list])])
  /\ exists k,
       (1 <= k)%N
       /\ unique_filename [(lit "openai-gpt", [chat_list])] (lit "list")
          = Ok (suffixed (lit "list") k).
Proof.
  assert (H : In (lit "list")
                (assigned_filenames [(lit "openai-gpt", [chat_list])]))
    by (left; reflexivity).
  split; [exact H|].
  destruct (C4_filename_unique_across_categories
              [(lit "openai-gpt", [chat_list])] (lit "list"))
    as (filename & E & _ & _ & Hsuffix).
  destruct (Hsuffix H) as (k & Hk & -> & _).
  exists k. split; [exact Hk | exact E].
Defined.

(** C4 (as stated) fails: two endpoints of different categories whose
    summaries sanitize to the same name do not both keep it; the second,
    in [file-services], gets the suffix -1 because of the first, in
    [openai-gpt]. *)
Lemma C4_counterexample :
  collect_endpoints unicode_excerpt two_lists
  = Ok {| endpoints_by_category :=
            [ (lit "openai-gpt", [chat_list]);
              (lit "file-services",
               [ {| ep_path := lit "/v1/files"; ep_method := lit "get";
                    ep_operation := list_operation;
                    ep_filename := lit "list-1";
                    ep_summary := lit "List" |} ]) ];
          all_categories := [lit "openai-gpt"; lit "file-services"] |}.
Proof. reflexivity. Qed.

(* ================================================================= *)
(** ** The endpoint loop *)

Lemma dict_get_cons (V : Type) (k k' : str) (v : V) (d : Dict.dict V) :
  Dict.get k ((k', v) :: d) = if str_eqb k k' then Some v else Dict.get k d.
Proof. reflexivity. Qed.

Lemma dict_set_cons (V : Type) (k k' : str) (v v' : V) (d : Dict.dict V) :
  Dict.set k v ((k', v') :: d)
  = if str_eqb k k' then (k', v) :: d else (k', v') :: Dict.set k v d.
Proof. reflexivity. Qed.

(** Making a key present, as [if k not in d: d[k] = []] does. *)
Lemma dict_ensure_cons (A : Type) (k k' : str) (v' : list A)
    (d : Dict.dict (list A)) :
  (if negb (Dict.mem k ((k', v') :: d)) then Dict.set k [] ((k', v') :: d)
   else (k', v') :: d)
  = if str_eqb k k' then (k', v') :: d
    else (k', v') :: (if negb (Dict.mem k d) then Dict.set k [] d else d).
Proof.
  unfold Dict.mem. rewrite dict_get_cons, dict_set_cons.
  destruct (str_eqb k k'); [reflexivity|].
  destruct (Dict.get k d); reflexivity.
Qed.

(** Appending to the list under a key, the key made present first, puts
    one element somewhere into the concatenation of the values. *)
Lemma dict_append_decompose (A : Type) (k : str) (x : A)
    (d : Dict.dict (list A)) :
  exists v l1 l2,
    getitem k (if negb (Dict.mem k d) then Dict.set k [] d else d) = Ok v
    /\ List.concat (Dict.values d) = l1 ++ l2
    /\ List.concat
         (Dict.values
            (Dict.set k (v ++ [x])
               (if negb (Dict.mem k d) then Dict.set k [] d else d)))
       = l1 ++ x :: l2.
Proof.
  induction d as [|[k' v'] d IH].
  - exists [], [], []. unfold getitem. cbn [Dict.mem Dict.get negb Dict.set].
    rewrite !str_eqb_refl.
    split; [reflexivity|]. split; reflexivity.
  - destruct IH as (v & l1 & l2 & Hg & Hd & Hs).
    rewrite dict_ensure_cons. unfold getitem in *.
    destruct (str_eqb k k') eqn:E.
    + exists v', v', (List.concat (Dict.values d)).
      rewrite dict_get_cons, dict_set_cons, E.
      split; [reflexivity|]. split; [reflexivity|].
      cbn [Dict.values map snd List.concat]. rewrite <- app_assoc. reflexivity.
    + exists v, (v' ++ l1), l2.
      rewrite dict_get_cons, dict_set_cons, E.
      split; [exact Hg|].
      cbn [Dict.values map snd List.concat]. fold (Dict.values d).
      unfold Dict.values in *. rewrite <- !app_assoc.
      split; (f_equal; [exact Hd || exact Hs]).
Qed.

(* ================================================================= *)
(** ** The documents written are distinct files *)

Lemma dict_set_keys (V : Type) (k k' : str) (v : V) (d : Dict.dict V) :
  In k' (map fst (Dict.set k v d)) -> In k' (map fst d) \/ k' = k.
Proof.
  induction d as [|[k0 v0] d IH].
  - simpl. intros [<-|[]]. right; reflexivity.
  - rewrite dict_set_cons. destruct (str_eqb k k0); simpl.
    + intros [H|H]; left; [left | right]; exact H.
    + intros [H|H]; [left; left; exact H|].
      destruct (IH H) as [H'|H']; [left; right; exact H' | right; exact H'].
Qed.

Lemma category_no_slash (db : UnicodeDB) (path : str) (tags : list str) :
  ~ In 47%N (get_endpoint_category db path tags).
Proof.
  assert (Hp : ~ In 47%N (category_of_path db path)).
  { unfold category_of_path. cbv zeta.
    repeat match goal with
    | |- context [if ?b then _ else _] => destruct b
    end; vm_compute; intuition discriminate. }
  unfold get_endpoint_category. destruct tags as [|tag0 tags]; [exact Hp|].
  unfold category_of_tag.
  repeat match goal with
  | |- context [if ?b then _ else _] => destruct b
  end; try exact Hp; vm_compute; intuition discriminate.
Qed.

(** Two strings that agree up to their first slash. *)
Lemma split_first_slash (c1 c2 r1 r2 : str) :
  ~ In 47%N c1 -> ~ In 47%N c2 ->
  c1 ++ 47%N :: r1 = c2 ++ 47%N :: r2 -> c1 = c2 /\ r1 = r2.
Proof.
  revert c2. induction c1 as [|a c1 IH]; intros [|b c2] H1 H2 H; simpl in *.
  - injection H as ->. split; reflexivity.
  - injection H as <- _. exfalso. apply H2. left; reflexivity.
  - injection H as -> _. exfalso. apply H1. left; reflexivity.
  - injection H as <- H.
    destruct (IH c2) as [-> ->]; [tauto | tauto | exact H |].
    split; reflexivity.
Qed.

Lemma file_path_of_inj (c1 c2 : str) (e1 e2 : Endpoint) :
  ~ In 47%N c1 -> ~ In 47%N c2 ->
  file_path_of c1 e1 = file_path_of c2 e2 ->
  ep_filename e1 = ep_filename e2.
Proof.
  unfold file_path_of. intros H1 H2 H.
  apply app_inv_head in H. apply app_inv_head in H.
  destruct (split_first_slash _ _ _ _ H1 H2 H) as [_ Hf].
  apply app_inv_tail in Hf. exact Hf.
Qed.

Lemma NoDup_map_transfer (A B C : Type) (f : A -> B) (g : A -> C)
    (l : list A) :
  (forall x y, In x l -> In y l -> g x = g y -> f x = f y) ->
  NoDup (map f l) -> NoDup (map g l).
Proof.
  induction l as [|a l IH]; intros Hfg Hnd; simpl; [constructor|].
  simpl in Hnd. inversion Hnd as [|? ? Hnotin Hnd']; subst. constructor.
  - intros Hin. apply in_map_iff in Hin. destruct Hin as (y & Hy & Hyl).
    apply Hnotin. apply in_map_iff. exists y. split; [|exact Hyl].
    apply Hfg; [right; exact Hyl | left; reflexivity | exact Hy].
  - apply IH; [|exact Hnd'].
    intros x y Hx Hy. apply Hfg; right; assumption.
Qed.

Lemma tagged_endpoints_snd (ebc : Categories) :
  map snd (tagged_endpoints ebc) = all_endpoints ebc.
Proof.
  unfold tagged_endpoints, all_endpoints, Dict.values.
  induction ebc as [|[c eps] rest IH]; [reflexivity|].
  simpl. rewrite map_app, IH, map_map. simpl. rewrite map_id. reflexivity.
Qed.

Lemma tagged_endpoints_files (ebc : Categories) :
  fst (write_documents ebc)
  = map (fun ce => file_path_of (fst ce) (snd ce)) (tagged_endpoints ebc).
Proof.
  unfold tagged_endpoints.
  induction ebc as [|[c eps] rest IH]; [reflexivity|].
  simpl. destruct (write_documents rest) as [files n]. simpl in *.
  rewrite map_app, IH, map_map. reflexivity.
Qed.

Lemma tagged_endpoints_category (ebc : Categories) (c : str) (e : Endpoint) :
  In (c, e) (tagged_endpoints ebc) -> In c (map fst ebc).
Proof.
  unfold tagged_endpoints. intros H. apply in_concat in H.
  destruct H as (l & Hl & Hin). apply in_map_iff in Hl.
  destruct Hl as ([c' eps] & <- & Hce). simpl in Hin.
  apply in_map_iff in Hin. destruct Hin as (e' & He & _).
  injection He as <- _. exact (in_map fst _ _ Hce).
Qed.

Lemma well_named_files (ebc : Categories) :
  well_named ebc -> NoDup (fst (write_documents ebc)).
Proof.
  intros [Hnd Hcat]. rewrite tagged_endpoints_files.
  apply (NoDup_map_transfer _ _ _ (fun ce => ep_filename (snd ce))).
  - intros [c1 e1] [c2 e2] H1 H2. simpl.
    apply file_path_of_inj; apply Hcat;
      eapply tagged_endpoints_category; eassumption.
  - unfold assigned_filenames in Hnd. fold (all_endpoints ebc) in Hnd.
    rewrite <- tagged_endpoints_snd, map_map in Hnd. exact Hnd.
Qed.

Lemma grows_refl (st : MainState) : grows 0 st st.
Proof. split; [lia|]. split; auto. Qed.

Lemma grows_trans (n m : nat) (st1 st2 st3 : MainState) :
  grows n st1 st2 -> grows m st2 st3 -> grows (n + m) st1 st3.
Proof.
  intros (H1 & H1' & H1'') (H2 & H2' & H2''). split; [lia|]. split.
  - intros e He.
    destruct (H2' e He) as [H|H]; [apply H1', H | right; exact H].
  - auto.
Qed.

Lemma unique_filename_nonempty (ebc : Categories) (base r : str) :
  unique_filename ebc base = Ok r -> base <> [] -> r <> [].
Proof.
  intros E Hb. destruct (unique_loop_first _ _ _ _ _ _ E) as [_ Hcase].
  destruct Hcase as [->|(_ & k & _ & -> & _)]; [exact Hb|].
  destruct base; [contradiction | discriminate].
Qed.

Section MainFacts.
Variable db : UnicodeDB.

(** Sanitization keeps a lower-case ASCII letter that comes first. *)
Lemma sanitize_filename_cons_lower (c : codepoint) (s : str) :
  ascii_lower c = true -> exists r, sanitize_filename db (c :: s) = c :: r.
Proof.
  intros Hc.
  assert (Hk : kept_char db c = true) by (revert Hc; class_facts).
  assert (Hh : is_hyphen c = false) by (revert Hc; class_facts).
  assert (Ha : is_ascii c = true) by (revert Hc; class_facts).
  assert (Hu : ascii_upper c = false) by (revert Hc; class_facts).
  assert (Hs : (c =? 931)%N = false) by (revert Hc; class_facts).
  unfold sanitize_filename. cbv zeta. simpl sub_special. rewrite Hk.
  rewrite (sub_hyphen_runs_keep _ _ Hh).
  unfold strip_by. simpl lstrip_by. rewrite Hh.
  rewrite (rstrip_by_cons_keep _ _ _ Hh).
  unfold lower. simpl lower_from. rewrite Hs. unfold tolower_full.
  rewrite Ha, Hu. simpl. eexists; reflexivity.
Qed.

Lemma http_method_first (method : str) :
  In method http_methods ->
  exists c m, method = c :: m /\ ascii_lower c = true.
Proof.
  intros H. simpl in H. decompose [or] H; try contradiction; subst;
    eexists; eexists; (split; [reflexivity|reflexivity]).
Qed.

Lemma fallback_name_nonempty (path method : str) :
  In method http_methods ->
  sanitize_filename db (fallback_name path method) <> [].
Proof.
  intros H. destruct (http_method_first _ H) as (c & m & -> & Hc).
  unfold fallback_name.
  match goal with
  | |- sanitize_filename db ((c :: m) ++ ?t) <> [] =>
      destruct (sanitize_filename_cons_lower c (m ++ t) Hc) as [r Hr];
      change ((c :: m) ++ t) with (c :: (m ++ t)); rewrite Hr
  end.
  discriminate.
Qed.

Lemma base_filename_of_nonempty (path method : str) (operation : Operation) :
  In method http_methods ->
  base_filename_of db path method operation <> [].
Proof.
  intros H. unfold base_filename_of. cbv zeta.
  destruct (str_eqb (sanitize_filename db (summary_of path method operation)) [])
    eqn:E.
  - apply fallback_name_nonempty, H.
  - apply str_eqb_neq, E.
Qed.

Lemma add_endpoint_grows (st : MainState) (path method : str)
    (operation : Operation) :
  exists st',
    add_endpoint db st path method operation = Ok st'
    /\ grows (if is_http_method method then 1 else 0) st st'.
Proof.
  unfold add_endpoint, is_http_method.
  destruct (existsb (str_eqb method) http_methods) eqn:Em.
  2:{ exists st. split; [reflexivity | apply grows_refl]. }
  apply existsb_str_eqb_In in Em. cbv zeta.
  destruct (unique_filename_total (endpoints_by_category st)
              (base_filename_of db path method operation)) as [f Ef].
  rewrite Ef. cbn [bind].
  pose proof (unique_filename_nonempty _ _ _ Ef
                (base_filename_of_nonempty path method operation Em)) as Hf.
  assert (Hfree : ~ In f (assigned_filenames (endpoints_by_category st))).
  { destruct (unique_loop_first _ _ _ _ _ _ Ef) as [Hfree _].
    intros H. apply filename_taken_In in H. congruence. }
  set (endpoint := {| ep_path := path; ep_method := method;
                      ep_operation := operation; ep_filename := f;
                      ep_summary := summary_of path method operation |}).
  destruct (dict_append_decompose Endpoint
              (get_endpoint_category db path (tags_of operation)) endpoint
              (endpoints_by_category st))
    as (v & l1 & l2 & Hg & Hd & Hs).
  match goal with
  | |- context [bind ?g _] => assert (Hg' : g = Ok v) by exact Hg
  end.
  rewrite Hg'. cbn [bind]. eexists. split; [reflexivity|].
  unfold grows, all_endpoints. cbn [endpoints_by_category].
  assert (Hd' : all_endpoints (endpoints_by_category st) = l1 ++ l2)
    by exact Hd.
  unfold all_endpoints in Hd'. split; [|split].
  - etransitivity; [apply (f_equal (@List.length _) Hs)|].
    rewrite Hd', !length_app. simpl. lia.
  - intros e He.
    assert (He' : In e (l1 ++ endpoint :: l2)) by (rewrite <- Hs; exact He).
    rewrite Hd'. apply in_app_or in He'.
    destruct He' as [H|[<-|H]].
    + left. apply in_or_app. left; exact H.
    + right. exact Hf.
    + left. apply in_or_app. right; exact H.
  - intros [Hnd Hcat]. unfold assigned_filenames in Hnd, Hfree.
    rewrite Hd' in Hnd, Hfree. split.
    + unfold assigned_filenames.
      match goal with
      | |- NoDup (map ep_filename ?l) =>
          assert (Hs' : l = l1 ++ endpoint :: l2) by exact Hs
      end.
      rewrite Hs'. rewrite map_app in *. simpl map.
      apply (NoDup_Add (Add_app f _ _)). split; assumption.
    + intros category Hin. apply dict_set_keys in Hin.
      destruct Hin as [Hin | ->]; [|apply category_no_slash].
      destruct (negb (Dict.mem _ _)); [|apply Hcat, Hin].
      apply dict_set_keys in Hin.
      destruct Hin as [Hin | ->]; [apply Hcat, Hin | apply category_no_slash].
Qed.

Lemma add_methods_grows (methods : Methods) :
  forall (st : MainState) (path : str),
  exists st',
    add_methods db st path methods = Ok st'
    /\ grows (List.length
                (filter (fun mo : str * Operation =>
                           existsb (str_eqb (fst mo)) http_methods) methods))
         st st'.
Proof.
  induction methods as [|[method operation] rest IH]; intros st path.
  - exists st. split; [reflexivity | apply grows_refl].
  - destruct (add_endpoint_grows st path method operation) as (st1 & E1 & G1).
    destruct (IH st1 path) as (st2 & E2 & G2).
    exists st2. simpl add_methods. rewrite E1. cbn [bind].
    split; [exact E2|].
    cbn [filter fst]. fold (is_http_method method).
    destruct (is_http_method method); cbn [List.length].
    + exact (grows_trans _ _ _ _ _ G1 G2).
    + exact (grows_trans _ _ _ _ _ G1 G2).
Qed.

Lemma add_paths_grows (spec : Specification) :
  forall st : MainState,
  exists st', add_paths db st spec = Ok st' /\ grows (endpoint_count spec) st st'.
Proof.
  induction spec as [|[path methods] rest IH]; intros st.
  - exists st. split; [reflexivity | apply grows_refl].
  - destruct (add_methods_grows methods st path) as (st1 & E1 & G1).
    destruct (IH st1) as (st2 & E2 & G2).
    exists st2. simpl add_paths. rewrite E1. cbn [bind].
    split; [exact E2|]. exact (grows_trans _ _ _ _ _ G1 G2).
Qed.

Lemma write_documents_count (ebc : Categories) :
  List.length (fst (write_documents ebc)) = List.length (all_endpoints ebc)
  /\ total_files ebc = List.length (all_endpoints ebc).
Proof.
  unfold total_files, all_endpoints.
  induction ebc as [|[category endpoints] rest [IH1 IH2]]; [split; reflexivity|].
  simpl. destruct (write_documents rest) as [files n]. simpl in *.
  rewrite !length_app, length_map, IH1, IH2. split; reflexivity.
Qed.

Lemma page_count_length (ebc : Categories) :
  page_count (generate_navigation_config db ebc)
  = List.length (all_endpoints ebc).
Proof.
  unfold page_count, all_endpoints.
  induction ebc as [|[category endpoints] rest IH]; [reflexivity|].
  simpl. rewrite length_app. destruct endpoints as [|e endpoints].
  - exact IH.
  - simpl map. simpl list_sum. rewrite IH, length_map. reflexivity.
Qed.

End MainFacts.

Lemma collect_endpoints_grows (db : UnicodeDB) (spec : Specification) :
  exists st,
    collect_endpoints db spec = Ok st
    /\ List.length (all_endpoints (endpoints_by_category st))
       = endpoint_count spec
    /\ Forall (fun e => ep_filename e <> [])
         (all_endpoints (endpoints_by_category st))
    /\ well_named (endpoints_by_category st).
Proof.
  unfold collect_endpoints.
  destruct (add_paths_grows db spec
              {| endpoints_by_category := []; all_categories := [] |})
    as (st & E & Hlen & Hnew & Hnamed).
  exists st. split; [exact E|]. split; [exact Hlen|]. split.
  - apply Forall_forall. intros e He.
    destruct (Hnew e He) as [[]|H]. exact H.
  - apply Hnamed. split; [constructor | intros c []].
Qed.

(** C8. For every specification the endpoint loop of [main] ends, and the
    page references of the navigation, summed over its groups, are as many
    as the documents written, one per endpoint, which are as many as the
    (path, method) entries of the specification; the documents are written
    to files that are pairwise distinct. *)
Theorem C8_navigation_page_count (db : UnicodeDB) (spec : Specification) :
  exists st,
    collect_endpoints db spec = Ok st
    /\ page_count (generate_navigation_config db (endpoints_by_category st))
       = total_files (endpoints_by_category st)
    /\ total_files (endpoints_by_category st)
       = List.length (fst (write_documents (endpoints_by_category st)))
    /\ total_files (endpoints_by_category st)
       = List.length (all_endpoints (endpoints_by_category st))
    /\ total_files (endpoints_by_category st) = endpoint_count spec
    /\ NoDup (fst (write_documents (endpoints_by_category st))).
Proof.
  destruct (collect_endpoints_grows db spec) as (st & E & Hlen & _ & Hnamed).
  destruct (write_documents_count (endpoints_by_category st)) as [Hw Ht].
  exists st. split; [exact E|].
  rewrite page_count_length, Ht, Hw, Hlen.
  repeat split; try reflexivity. apply well_named_files, Hnamed.
Qed.

(* ================================================================= *)
(** ** A text from end to end *)

(** An operation whose summary comes before its tags: category, filename
    and page reference. *)
Lemma summary_then_tags :
  (spec <- parse_yaml_basic
             (text ["paths:"; "  /v1/images/generations:"; "    post:";
                    "      summary: Generate Image"; "      tags:";
                    "        - Midjourney Imagine"]) ;;
   st <- collect_endpoints unicode_excerpt spec ;;
   Ok (generate_navigation_config unicode_excerpt (endpoints_by_category st)))
  = Ok [ {| group := lit "Midjourney";
            pages := [lit "api-reference/midjourney/generate-image"] |} ].
Proof. reflexivity. Qed.

(** With the tags first, the [summary:] line is the one that closes the
    tag block, and it sets no summary: the filename comes from the method
    and the path. *)
Lemma tags_then_summary :
  (spec <- parse_yaml_basic
             (text ["paths:"; "  /v1/images/generations:"; "    post:";
                    "      tags:"; "        - Midjourney Imagine";
                    "      summary: Generate Image"]) ;;
   st <- collect_endpoints unicode_excerpt spec ;;
   Ok (generate_navigation_config unicode_excerpt (endpoints_by_category st)))
  = Ok [ {| group := lit "Midjourney";
            pages :=
              [lit "api-reference/midjourney/post-v1-images-generations"] |} ].
Proof. reflexivity. Qed.

(* ================================================================= *)
(** ** Dictionaries: lookup after assignment *)

Section DictLookup.
Variable V : Type.
Implicit Types (d : Dict.dict V) (k : str) (v : V).

Lemma dict_get_In_key k v d : Dict.get k d = Some v -> In (k, v) d.
Proof.
  induction d as [|[k' v'] d IH]; simpl; [discriminate|].
  destruct (str_eqb k k') eqn:E.
  - apply str_eqb_eq in E. subst k'. intros H; injection H as ->.
    left; reflexivity.
  - intros H. right. exact (IH H).
Qed.

Lemma dict_set_In_key k v d k' v' :
  In (k', v') (Dict.set k v d) -> In (k', v') d \/ (k' = k /\ v' = v).
Proof.
  induction d as [|[k0 v0] d IH]; simpl.
  - intros [H|[]]. injection H as <- <-. right; split; reflexivity.
  - destruct (str_eqb k k0) eqn:E; simpl.
    + apply str_eqb_eq in E. subst k0.
      intros [H|H]; [injection H as <- <-; right; split; reflexivity
                    | left; right; exact H].
    + intros [H|H]; [left; left; exact H|].
      destruct (IH H) as [H'|H']; [left; right; exact H' | right; exact H'].
Qed.

Lemma dict_get_set_other k k' v d :
  k' <> k -> Dict.get k' (Dict.set k v d) = Dict.get k' d.
Proof.
  intros Hne. induction d as [|[k0 v0] d IH]; simpl.
  - apply str_eqb_neq in Hne. rewrite Hne. reflexivity.
  - destruct (str_eqb k k0) eqn:E; simpl.
    + apply str_eqb_eq in E. subst k0.
      apply str_eqb_neq in Hne. rewrite Hne. reflexivity.
    + rewrite IH. reflexivity.
Qed.

Lemma dict_set_set k v v0 d :
  Dict.set k v (Dict.set k v0 d) = Dict.set k v d.
Proof.
  induction d as [|[k0 v1] d IH]; simpl.
  - rewrite str_eqb_refl. reflexivity.
  - destruct (str_eqb k k0) eqn:E; simpl; rewrite E; [reflexivity|].
    rewrite IH. reflexivity.
Qed.

Lemma dict_get_None_keys k d :
  Dict.get k d = None -> ~ In k (map fst d).
Proof.
  induction d as [|[k0 v0] d IH]; simpl; [tauto|].
  destruct (str_eqb k k0) eqn:E; [discriminate|].
  intros H [Heq|Hin]; [|exact (IH H Hin)].
  apply str_eqb_neq in E. congruence.
Qed.

Lemma dict_get_Some_keys k v d :
  Dict.get k d = Some v -> In k (map fst d).
Proof.
  intros H. apply dict_get_In_key in H. exact (in_map fst _ _ H).
Qed.

(** Assignment keeps the keys in place and puts a new key last. *)
Lemma dict_set_keys_eq k v d :
  map fst (Dict.set k v d)
  = if Dict.mem k d then map fst d else map fst d ++ [k].
Proof.
  unfold Dict.mem. induction d as [|[k0 v0] d IH]; simpl; [reflexivity|].
  destruct (str_eqb k k0) eqn:E; simpl; [reflexivity|].
  rewrite IH. destruct (Dict.get k d); reflexivity.
Qed.

Lemma dict_set_NoDup k v d :
  NoDup (map fst d) -> NoDup (map fst (Dict.set k v d)).
Proof.
  intros H. rewrite dict_set_keys_eq. unfold Dict.mem.
  destruct (Dict.get k d) eqn:E; [exact H|].
  apply NoDup_rev in H. rewrite <- (rev_involutive (map fst d ++ [k])).
  apply NoDup_rev. rewrite rev_app_distr. simpl. constructor; [|exact H].
  rewrite <- in_rev. exact (dict_get_None_keys _ _ E).
Qed.

Lemma dict_set_nonempty k v d : Dict.set k v d <> [].
Proof.
  destruct d as [|[k0 v0] d]; simpl; [discriminate|].
  destruct (str_eqb k k0); discriminate.
Qed.

End DictLookup.

(* ================================================================= *)
(** ** Storing an operation *)

Lemma store_operation_eq (ps : Specification) (path method : str)
    (op : Operation) :
  store_operation ps path method op
  = Ok (Dict.set path (Dict.set method op (methods_at ps path)) ps).
Proof.
  unfold store_operation, methods_at, getitem, Dict.mem. cbv zeta.
  destruct (Dict.get path ps) as [ms|] eqn:E; cbn [negb].
  - change (@Dict.get (list (str * Operation)) path ps)
      with (@Dict.get Methods path ps).
    rewrite E. reflexivity.
  - rewrite dict_get_set_same. cbn [bind]. rewrite dict_set_set. reflexivity.
Qed.

Lemma store_operation_found (ps : Specification) (path method : str)
    (op : Operation) :
  exists ps',
    store_operation ps path method op = Ok ps'
    /\ lookup_operation ps' path method = Some op
    /\ (forall path' method',
          (path', method') <> (path, method) ->
          lookup_operation ps' path' method'
          = lookup_operation ps path' method')
    /\ (Dict.mem path ps = true -> map fst ps' = map fst ps)
    /\ (Dict.mem path ps = false -> map fst ps' = map fst ps ++ [path]).
Proof.
  eexists. split; [apply store_operation_eq|].
  unfold lookup_operation. split; [|split; [|split]].
  - rewrite dict_get_set_same, dict_get_set_same. reflexivity.
  - intros path' method' Hne.
    destruct (list_eq_dec N.eq_dec path' path) as [->|Hp].
    + rewrite dict_get_set_same.
      assert (Hm : method' <> method) by congruence.
      rewrite (dict_get_set_other _ _ _ _ _ Hm). unfold methods_at.
      destruct (Dict.get path ps); reflexivity.
    + rewrite (dict_get_set_other _ _ _ _ _ Hp). reflexivity.
  - intros H. rewrite dict_set_keys_eq.
    match goal with
    | |- context [if ?b then _ else _] => change b with (Dict.mem path ps)
    end.
    rewrite H. reflexivity.
  - intros H. rewrite dict_set_keys_eq.
    match goal with
    | |- context [if ?b then _ else _] => change b with (Dict.mem path ps)
    end.
    rewrite H. reflexivity.
Qed.

(** Storing an operation and looking it up: the operation stored is the
    one found under its path and method, an earlier one under the same
    path and method is replaced, and every other entry is found as
    before. *)
Theorem store_operation_lookup (ps : Specification) (path method : str)
    (op : Operation) :
  exists ps',
    store_operation ps path method op = Ok ps'
    /\ lookup_operation ps' path method = Some op
    /\ (forall path' method',
          (path', method') <> (path, method) ->
          lookup_operation ps' path' method'
          = lookup_operation ps path' method')
    /\ (Dict.mem path ps = true -> map fst ps' = map fst ps)
    /\ (Dict.mem path ps = false -> map fst ps' = map fst ps ++ [path]).
Proof. exact (store_operation_found ps path method op). Qed.

Lemma store_operation_lookup_witness :
  Dict.mem (lit "/a") one_operation = true
  /\ exists ps',
       store_operation one_operation (lit "/a") (lit "get") list_operation
       = Ok ps'
       /\ lookup_operation ps' (lit "/a") (lit "get") = Some list_operation
       /\ map fst ps' = map fst one_operation.
Proof.
  destruct (store_operation_lookup one_operation (lit "/a") (lit "get")
              list_operation) as (ps' & E & Hfound & _ & Hkeys & _).
  split; [reflexivity|]. exists ps'. split; [exact E|].
  split; [exact Hfound | apply Hkeys; reflexivity].
Defined.

(* ================================================================= *)
(** ** Where the entries of a specification come from *)

Lemma path_marker_slash (line_stripped : str) :
  is_path_marker line_stripped = true ->
  startswith (lit "/") (drop_last line_stripped) = true.
Proof.
  unfold is_path_marker. intros H. apply andb_true_iff in H.
  destruct H as [H1 H2]. destruct (startswith_app _ _ H1) as [rest ->].
  destruct rest as [|c r]; [discriminate H2|]. reflexivity.
Qed.

Lemma method_marker_http (line_stripped : str) :
  is_method_marker line_stripped = true ->
  In (drop_last line_stripped) http_methods.
Proof.
  intros H. apply method_marker_In in H. simpl in H.
  decompose [or] H; try contradiction; subst; simpl; tauto.
Qed.

Section Marked.
Variable L : list str.

Lemma store_operation_marked (ps ps' : Specification) (path method : str)
    (op : Operation) :
  entries_marked L ps -> NoDup (map fst ps) ->
  path_marked L path -> method_marked L method ->
  store_operation ps path method op = Ok ps' ->
  entries_marked L ps' /\ NoDup (map fst ps').
Proof.
  intros Hps Hnd Hpath Hmethod H. rewrite store_operation_eq in H.
  injection H as <-. split; [|apply dict_set_NoDup, Hnd].
  assert (Hat : NoDup (map fst (methods_at ps path))
                /\ forall m o, In (m, o) (methods_at ps path) ->
                     method_marked L m).
  { unfold methods_at. destruct (Dict.get path ps) as [ms|] eqn:E.
    - apply dict_get_In_key in E. destruct (Hps _ _ E) as (_ & _ & H1 & H2).
      split; assumption.
    - split; [constructor | intros m o []]. }
  destruct Hat as [Hat1 Hat2].
  intros p ms Hin. apply dict_set_In_key in Hin.
  destruct Hin as [Hin | [-> ->]]; [exact (Hps _ _ Hin)|].
  split; [exact Hpath|]. split; [apply dict_set_nonempty|].
  split; [apply dict_set_NoDup, Hat1|].
  intros m o Hmo. apply dict_set_In_key in Hmo.
  destruct Hmo as [Hmo | [-> _]]; [exact (Hat2 _ _ Hmo) | exact Hmethod].
Qed.

Lemma finalize_marked (st : ParserState) (ps : Specification) :
  state_marked L st -> finalize st = Ok ps ->
  entries_marked L ps /\ NoDup (map fst ps).
Proof.
  intros (Hps & Hnd & Hp & Hm). unfold finalize.
  destruct (current_path st) as [path|];
    [|intros H; injection H as <-; split; assumption].
  destruct (current_method st) as [method|];
    [|intros H; injection H as <-; split; assumption].
  destruct (_ && _); [|intros H; injection H as <-; split; assumption].
  apply store_operation_marked; auto.
Qed.

Lemma step_marked (st st' : ParserState) (line : str) :
  In line L -> state_marked L st -> step st line = Ok st' ->
  state_marked L st'.
Proof.
  intros Hline Hst H. pose proof Hst as (Hps & Hnd & Hp & Hm).
  step_cases H; unfold state_marked; simpl;
    try (destruct (finalize_marked _ _ Hst Efin) as [Hps' Hnd']);
    (split; [|split; [|split]]); try assumption; try discriminate;
    intros x Hx; injection Hx as <-; exists line;
    (split; [|split]); try assumption; reflexivity.
Qed.

Lemma run_lines_marked (lines : list str) :
  forall st st',
    incl lines L -> state_marked L st ->
    run_lines st lines = Ok st' -> state_marked L st'.
Proof.
  induction lines as [|line lines IH]; intros st st' Hincl Hst; simpl.
  - intros H; injection H as <-. exact Hst.
  - destruct (step st line) as [st1| |] eqn:E; simpl; try discriminate.
    apply IH.
    + intros x Hx. apply Hincl. right; exact Hx.
    + apply (step_marked st st1 line); [apply Hincl; left; reflexivity | exact Hst | exact E].
Qed.

End Marked.

Lemma parse_yaml_basic_marked (content : str) (spec : Specification) :
  parse_yaml_basic content = Ok spec ->
  entries_marked (lines_of content) spec /\ NoDup (map fst spec).
Proof.
  unfold parse_yaml_basic. fold (lines_of content).
  destruct (run_lines initial_state (lines_of content)) as [st| |] eqn:E;
    simpl; try discriminate.
  assert (Hst : state_marked (lines_of content) st).
  { apply (run_lines_marked _ _ _ _ (incl_refl _)) in E; [exact E|].
    unfold state_marked. simpl. split; [|split; [|split]];
      try discriminate; [intros path methods [] | constructor]. }
  unfold finish. destruct (_ && _).
  - apply finalize_marked. destruct Hst as (Hps & Hnd & Hp & Hm).
    unfold commit_open_tags.
    destruct (in_tags st); (split; [|split; [|split]]); assumption.
  - intros H; injection H as <-. destruct Hst as (Hps & Hnd & _).
    split; assumption.
Qed.

(** The entries of the specification come from the text: every path is
    named by a path marker of the text and begins with a slash, every
    path has a method, and every method is named by a method marker of the
    text and is one of [get], [post], [put], [delete], [patch]. *)
Theorem parse_yaml_basic_entries (content : str) :
  exists spec,
    parse_yaml_basic content = Ok spec
    /\ forall path methods,
         In (path, methods) spec ->
         path_marked (lines_of content) path
         /\ startswith (lit "/") path = true
         /\ methods <> []
         /\ forall method op,
              In (method, op) methods ->
              method_marked (lines_of content) method
              /\ In method http_methods.
Proof.
  destruct (parse_yaml_basic_total content) as [spec E]. exists spec.
  split; [exact E|]. destruct (parse_yaml_basic_marked _ _ E) as [Hps _].
  intros path methods Hin. destruct (Hps _ _ Hin) as (Hp & Hne & _ & Hm).
  split; [exact Hp|]. split.
  { destruct Hp as (line & _ & Hmark & ->). apply path_marker_slash, Hmark. }
  split; [exact Hne|]. intros method op Hmo.
  pose proof (Hm _ _ Hmo) as Hmm. split; [exact Hmm|].
  destruct Hmm as (line & _ & Hmark & ->). apply method_marker_http, Hmark.
Qed.

(** No path occurs twice in the specification, and no method twice under
    a path. *)
Theorem parse_yaml_basic_keys_distinct (content : str) :
  exists spec,
    parse_yaml_basic content = Ok spec
    /\ NoDup (map fst spec)
    /\ forall path methods,
         In (path, methods) spec -> NoDup (map fst methods).
Proof.
  destruct (parse_yaml_basic_total content) as [spec E]. exists spec.
  split; [exact E|]. destruct (parse_yaml_basic_marked _ _ E) as [Hps Hnd].
  split; [exact Hnd|]. intros path methods Hin.
  destruct (Hps _ _ Hin) as (_ & _ & H & _). exact H.
Qed.

Lemma parse_yaml_basic_entries_witness :
  exists spec,
    parse_yaml_basic two_methods_text = Ok spec
    /\ In (lit "/a", [(lit "get", empty_operation);
                      (lit "post", empty_operation)]) spec
    /\ path_marked (lines_of two_methods_text) (lit "/a").
Proof.
  destruct (parse_yaml_basic_entries two_methods_text) as (spec & E & H).
  exists spec. split; [exact E|].
  assert (Hin : In (lit "/a", [(lit "get", empty_operation);
                               (lit "post", empty_operation)]) spec).
  { vm_compute in E. injection E as <-. left; reflexivity. }
  split; [exact Hin|]. exact (proj1 (H _ _ Hin)).
Defined.

Lemma parse_yaml_basic_keys_distinct_witness :
  exists spec,
    parse_yaml_basic two_methods_text = Ok spec
    /\ In (lit "/a", [(lit "get", empty_operation);
                      (lit "post", empty_operation)]) spec
    /\ NoDup [lit "get"; lit "post"].
Proof.
  destruct (parse_yaml_basic_keys_distinct two_methods_text)
    as (spec & E & _ & H).
  exists spec. split; [exact E|].
  assert (Hin : In (lit "/a", [(lit "get", empty_operation);
                               (lit "post", empty_operation)]) spec).
  { vm_compute in E. injection E as <-. left; reflexivity. }
  split; [exact Hin|]. exact (H _ _ Hin).
Defined.

(* ================================================================= *)
(** ** The end of the input, list items, summaries *)

(** At the end of the input the operation in progress, its open tag block
    committed, is stored under the current path and method; the other
    entries stay. *)
Theorem finish_stores_open_operation (st : ParserState)
    (path method : str) :
  current_path st = Some path -> current_method st = Some method ->
  path <> [] -> method <> [] ->
  exists spec,
    finish st = Ok spec
    /\ lookup_operation spec path method
       = Some (if in_tags st
               then set_tags (tags st) (current_operation st)
               else current_operation st)
    /\ forall path' method',
         (path', method') <> (path, method) ->
         lookup_operation spec path' method'
         = lookup_operation (paths st) path' method'.
Proof.
  intros Hp Hm Hpe Hme.
  destruct st as [ps cp cm op it tg]. simpl in Hp, Hm. subst cp cm.
  destruct path as [|a path]; [contradiction|].
  destruct method as [|b method]; [contradiction|].
  unfold finish, finalize, commit_open_tags. simpl.
  destruct it; simpl;
    match goal with
    | |- context [store_operation ?p ?a ?b ?o] =>
        destruct (store_operation_found p a b o) as (ps' & E & H1 & H2 & _)
    end; exists ps'; (split; [exact E|]); split; assumption.
Qed.

Lemma finish_stores_open_operation_witness :
  current_path open_tag_block = Some (lit "/a")
  /\ exists spec,
       finish open_tag_block = Ok spec
       /\ lookup_operation spec (lit "/a") (lit "get")
          = Some (set_tags [lit "x"] empty_operation).
Proof.
  split; [reflexivity|].
  destruct (finish_stores_open_operation open_tag_block (lit "/a") (lit "get")
              eq_refl eq_refl)
    as (spec & E & H & _); try discriminate.
  exists spec. split; [exact E | exact H].
Defined.

Lemma step_list_item (st : ParserState) (line : str) :
  in_tags st = true -> startswith (lit "- ") (strip line) = true ->
  step st line
  = Ok {| paths := paths st; current_path := current_path st;
          current_method := current_method st;
          current_operation := current_operation st;
          in_tags := true; tags := tags st ++ [tag_of_item line] |}.
Proof.
  intros Hin Hl. destruct (startswith_app _ _ Hl) as [rest Hrest].
  rewrite (step_in_tag_block st line Hin);
    [|rewrite Hrest; reflexivity|rewrite Hrest; reflexivity].
  rewrite Hl, Hin. rewrite Hrest at 1.
  change (str_eqb (lit "- " ++ rest) (lit "tags:")) with false.
  reflexivity.
Qed.

(** In a tag block the list items are appended to the pending tags in
    the order of the lines, each trimmed after its marker; the block stays
    open and nothing else changes. *)
Theorem tag_items_in_order (lines : list str) (st : ParserState) :
  in_tags st = true ->
  Forall (fun line => startswith (lit "- ") (strip line) = true) lines ->
  run_lines st lines
  = Ok {| paths := paths st; current_path := current_path st;
          current_method := current_method st;
          current_operation := current_operation st;
          in_tags := true; tags := tags st ++ map tag_of_item lines |}.
Proof.
  revert st. induction lines as [|line lines IH]; intros st Hin Hall.
  - simpl. rewrite app_nil_r. destruct st; simpl in *; subst; reflexivity.
  - inversion Hall as [|? ? Hline Hrest]; subst.
    simpl run_lines. rewrite (step_list_item st line Hin Hline). cbn [bind].
    rewrite IH; [|reflexivity|exact Hrest]. simpl.
    rewrite <- app_assoc. reflexivity.
Qed.

Lemma tag_items_in_order_witness :
  in_tags open_tag_block = true
  /\ run_lines open_tag_block [lit "  - a b "; lit "-  c"]
     = Ok {| paths := []; current_path := Some (lit "/a");
             current_method := Some (lit "get");
             current_operation := empty_operation;
             in_tags := true; tags := [lit "x"; lit "a b"; lit "c"] |}.
Proof.
  split; [reflexivity|].
  rewrite (tag_items_in_order [lit "  - a b "; lit "-  c"] open_tag_block
             eq_refl).
  - reflexivity.
  - repeat constructor.
Defined.

(** When no tag block is open, a line whose trimmed form starts with
    [summary:] sets the summary of the operation in progress to the rest
    of the line, trimmed and stripped of the quotes at both ends, and
    changes nothing else; the summary begins and ends with no quote. *)
Theorem summary_line_sets_summary (st : ParserState) (line rest : str) :
  in_tags st = false ->
  strip line = lit "summary:" ++ rest ->
  step st line
  = Ok {| paths := paths st; current_path := current_path st;
          current_method := current_method st;
          current_operation :=
            set_summary (strip_by is_quote (strip rest))
              (current_operation st);
          in_tags := false; tags := tags st |}
  /\ no_lead is_quote (strip_by is_quote (strip rest))
  /\ no_lead is_quote (rev (strip_by is_quote (strip rest))).
Proof.
  intros Hin Hrest.
  split; [|split; [apply strip_by_no_lead | apply strip_by_no_trail]].
  destruct st as [ps cp cm op it tg]. simpl in Hin. subst it.
  unfold step, commit_open_tags, with_operation, field_value. cbv zeta.
  cbn [in_tags paths current_path current_method current_operation tags].
  rewrite Hrest.
  change (is_path_marker (lit "summary:" ++ rest)) with false.
  change (is_method_marker (lit "summary:" ++ rest)) with false.
  change (str_eqb (lit "summary:" ++ rest) (lit "tags:")) with false.
  change (startswith (lit "summary:") (lit "summary:" ++ rest)) with true.
  change (slice_from 8 (lit "summary:" ++ rest)) with rest.
  cbn [andb]. rewrite andb_false_r. reflexivity.
Qed.

Lemma summary_line_sets_summary_witness :
  strip (lit "  summary: 'List models'  ")
    = lit "summary:" ++ lit " 'List models'"
  /\ step initial_state (lit "  summary: 'List models'  ")
     = Ok {| paths := []; current_path := None; current_method := None;
             current_operation :=
               set_summary (lit "List models") empty_operation;
             in_tags := false; tags := [] |}.
Proof.
  split; [reflexivity|].
  rewrite (proj1 (summary_line_sets_summary initial_state
                    (lit "  summary: 'List models'  ") (lit " 'List models'")
                    eq_refl eq_refl)).
  reflexivity.
Defined.

(* ================================================================= *)
(** ** Sanitization: empty results, length, case *)

Lemma ascii_tolower_idem (c : codepoint) :
  ascii_tolower (ascii_tolower c) = ascii_tolower c.
Proof. class_facts. Qed.

Lemma all_ascii_tolower (s : str) :
  all_ascii s -> all_ascii (map ascii_tolower s).
Proof.
  intros H. apply Forall_map. revert H. apply Forall_impl.
  exact ascii_tolower_ascii.
Qed.

Lemma filter_nil_iff (A : Type) (f : A -> bool) (l : list A) :
  filter f l = [] <-> Forall (fun x => f x = false) l.
Proof.
  induction l as [|a l IH]; simpl.
  - split; [constructor | reflexivity].
  - destruct (f a) eqn:E; split.
    + discriminate.
    + intros H. inversion H; congruence.
    + intros H. constructor; [exact E | apply IH, H].
    + intros H. inversion H; subst. apply IH. assumption.
Qed.

Lemma lstrip_by_length (p : codepoint -> bool) (s : str) :
  List.length (lstrip_by p s) <= List.length s.
Proof.
  induction s as [|c s IH]; simpl; [lia|]. destruct (p c); simpl; lia.
Qed.

Lemma strip_by_length (p : codepoint -> bool) (s : str) :
  List.length (strip_by p s) <= List.length s.
Proof.
  unfold strip_by, rstrip_by. rewrite length_rev.
  etransitivity; [apply lstrip_by_length|]. rewrite length_rev.
  apply lstrip_by_length.
Qed.

Lemma sub_hyphen_runs_length (s : str) :
  List.length (sub_hyphen_runs s) <= List.length s.
Proof.
  induction s as [|c s IH]; [simpl; lia|].
  rewrite sub_hyphen_runs_eq. destruct (is_hyphen c).
  - destruct s as [|c' s]; [simpl; lia|].
    destruct (is_hyphen c'); simpl in *; lia.
  - simpl. lia.
Qed.

Lemma sub_hyphen_runs_map (f : codepoint -> codepoint) (s : str) :
  (forall c, is_hyphen (f c) = is_hyphen c) ->
  sub_hyphen_runs (map f s) = map f (sub_hyphen_runs s).
Proof.
  intros Hf. induction s as [|c s IH]; [reflexivity|].
  change (map f (c :: s)) with (f c :: map f s).
  rewrite (sub_hyphen_runs_eq (f c) (map f s)), (sub_hyphen_runs_eq c s), Hf.
  destruct (is_hyphen c).
  - destruct s as [|c' s]; [reflexivity|].
    cbn [map] in IH |- *. rewrite Hf.
    destruct (is_hyphen c'); rewrite IH; reflexivity.
  - rewrite IH. reflexivity.
Qed.

Section SanitizeMore.
Variable db : UnicodeDB.

Lemma kept_char_tolower (c : codepoint) :
  is_ascii c = true ->
  kept_char db (ascii_tolower c) = kept_char db c.
Proof. class_facts. Qed.

Lemma sub_special_tolower (s : str) :
  all_ascii s ->
  sub_special db (map ascii_tolower s)
  = map ascii_tolower (sub_special db s).
Proof.
  induction 1 as [|c s Hc Hs IH]; [reflexivity|].
  simpl. rewrite (kept_char_tolower _ Hc), IH.
  destruct (kept_char db c); reflexivity.
Qed.

Lemma sanitize_filename_filter (s : str) :
  all_ascii s ->
  filter not_hyphen (sanitize_filename db s)
  = map ascii_tolower (filter (word_char db) s).
Proof.
  intros H. rewrite (sanitize_filename_ascii db _ H), filter_not_hyphen_tolower.
  f_equal. unfold hyphenated.
  change not_hyphen with (fun c => negb (is_hyphen c)).
  rewrite strip_by_filter.
  change (fun c => negb (is_hyphen c)) with not_hyphen.
  rewrite sub_hyphen_runs_filter. apply sub_special_filter, H.
Qed.

(** On an ASCII string the result of sanitization is empty exactly when
    the string has no letter, digit or underscore: this is when [main]
    falls back on the method and the path. *)
Theorem sanitize_filename_empty_iff (s : str) :
  all_ascii s ->
  (sanitize_filename db s = []
   <-> Forall (fun c => word_char db c = false) s).
Proof.
  intros H. pose proof (sanitize_filename_filter s H) as Hf.
  rewrite <- filter_nil_iff. split.
  - intros E. rewrite E in Hf. simpl in Hf. symmetry in Hf.
    apply map_eq_nil in Hf. exact Hf.
  - intros E. rewrite E in Hf. simpl in Hf.
    pose proof (strip_by_no_lead is_hyphen (sanitize_filename db s)) as Hl.
    rewrite (sanitize_filename_stripped db _ H) in Hl.
    destruct (sanitize_filename db s) as [|c r]; [reflexivity|].
    simpl in Hl, Hf. unfold not_hyphen in Hf at 1. rewrite Hl in Hf.
    discriminate Hf.
Qed.

(** On an ASCII string sanitization never lengthens. *)
Theorem sanitize_filename_length (s : str) :
  all_ascii s ->
  List.length (sanitize_filename db s) <= List.length s.
Proof.
  intros H. rewrite (sanitize_filename_ascii db _ H), length_map.
  unfold hyphenated. etransitivity; [apply strip_by_length|].
  etransitivity; [apply sub_hyphen_runs_length|].
  unfold sub_special. rewrite length_map. lia.
Qed.

(** Sanitization does not see the case of ASCII letters: a string and its
    lower case get the same name. *)
Theorem sanitize_filename_lower (s : str) :
  all_ascii s ->
  sanitize_filename db (lower db s) = sanitize_filename db s.
Proof.
  intros H. rewrite (lower_ascii db _ H).
  rewrite (sanitize_filename_ascii db _ (all_ascii_tolower _ H)).
  rewrite (sanitize_filename_ascii db _ H). unfold hyphenated.
  rewrite (sub_special_tolower _ H).
  rewrite (sub_hyphen_runs_map _ _ ascii_tolower_hyphen).
  rewrite (strip_by_map _ _ _ ascii_tolower_hyphen).
  rewrite map_map. apply map_ext. exact ascii_tolower_idem.
Qed.

End SanitizeMore.

Lemma sanitize_filename_empty_iff_witness :
  all_ascii (lit "?? -- !")
  /\ sanitize_filename unicode_excerpt (lit "?? -- !") = [].
Proof.
  assert (H : all_ascii (lit "?? -- !"))
    by (unfold all_ascii; repeat constructor).
  split; [exact H|].
  apply (proj2 (sanitize_filename_empty_iff unicode_excerpt _ H)).
  repeat constructor.
Defined.

Lemma sanitize_filename_length_witness :
  all_ascii (lit "Create a chat completion")
  /\ List.length
       (sanitize_filename unicode_excerpt (lit "Create a chat completion"))
     <= 24.
Proof.
  assert (H : all_ascii (lit "Create a chat completion"))
    by (unfold all_ascii; repeat constructor).
  split; [exact H|].
  exact (sanitize_filename_length unicode_excerpt _ H).
Defined.

Lemma sanitize_filename_lower_witness :
  all_ascii (lit "List Models")
  /\ sanitize_filename unicode_excerpt (lit "list models")
     = sanitize_filename unicode_excerpt (lit "List Models").
Proof.
  assert (H : all_ascii (lit "List Models"))
    by (unfold all_ascii; repeat constructor).
  split; [exact H|].
  exact (sanitize_filename_lower unicode_excerpt _ H).
Defined.

(* ================================================================= *)
(** ** Categorization: labels and case *)

Lemma category_labelled (db : UnicodeDB) (path : str) (tags : list str) :
  exists label,
    Dict.get (get_endpoint_category db path tags) category_names
    = Some label.
Proof.
  assert (Hp : exists label,
             Dict.get (category_of_path db path) category_names = Some label).
  { unfold category_of_path. cbv zeta.
    repeat match goal with
    | |- context [if ?b then _ else _] => destruct b
    end; eexists; reflexivity. }
  unfold get_endpoint_category. destruct tags as [|tag0 tags]; [exact Hp|].
  unfold category_of_tag.
  repeat match goal with
  | |- context [if ?b then _ else _] => destruct b
  end; try exact Hp; eexists; reflexivity.
Qed.

(** Every category that [get_endpoint_category] returns has a label in
    the table of [generate_navigation_config]. *)
Theorem category_has_label (db : UnicodeDB) (path : str) (tags : list str) :
  exists label,
    Dict.get (get_endpoint_category db path tags) category_names
    = Some label.
Proof. exact (category_labelled db path tags). Qed.

Lemma lower_lower_ascii (db : UnicodeDB) (s : str) :
  all_ascii s -> lower db (lower db s) = lower db s.
Proof.
  intros H. rewrite (lower_ascii db _ H).
  rewrite (lower_ascii db _ (all_ascii_tolower _ H)).
  rewrite map_map. apply map_ext. exact ascii_tolower_idem.
Qed.

(** Categorization does not see the case of ASCII letters, in the path
    or in the tags. *)
Theorem get_endpoint_category_lower (db : UnicodeDB) (path : str)
    (tags : list str) :
  all_ascii path -> Forall all_ascii tags ->
  get_endpoint_category db (lower db path) (map (lower db) tags)
  = get_endpoint_category db path tags.
Proof.
  intros Hp Ht.
  assert (Hpath : category_of_path db (lower db path)
                  = category_of_path db path).
  { unfold category_of_path. cbv zeta.
    rewrite (lower_lower_ascii db _ Hp). reflexivity. }
  unfold get_endpoint_category.
  destruct Ht as [|tag0 tags Htag0 _]; [exact Hpath|].
  cbn [map]. rewrite (lower_lower_ascii db _ Htag0), Hpath. reflexivity.
Qed.

Lemma get_endpoint_category_lower_witness :
  all_ascii (lit "/V1/Chat/Completions")
  /\ get_endpoint_category unicode_excerpt (lit "/v1/chat/completions")
       [lit "claude messages"]
     = get_endpoint_category unicode_excerpt (lit "/V1/Chat/Completions")
         [lit "Claude Messages"].
Proof.
  assert (H : all_ascii (lit "/V1/Chat/Completions"))
    by (unfold all_ascii; repeat constructor).
  split; [exact H|].
  apply (get_endpoint_category_lower unicode_excerpt
           (lit "/V1/Chat/Completions") [lit "Claude Messages"] H).
  repeat constructor.
Defined.

(* ================================================================= *)
(** ** The endpoint loop: what every endpoint is *)

Lemma dict_mem_existsb (V : Type) (k : str) (d : Dict.dict V) :
  Dict.mem k d = existsb (str_eqb k) (map fst d).
Proof.
  unfold Dict.mem. induction d as [|[k0 v0] d IH]; [reflexivity|].
  simpl. destruct (str_eqb k k0); [reflexivity | exact IH].
Qed.

Lemma getitem_ensure (A : Type) (k : str) (d : Dict.dict (list A)) :
  getitem k (if negb (Dict.mem k d) then Dict.set k [] d else d)
  = Ok (match Dict.get k d with Some v => v | None => [] end).
Proof.
  unfold getitem, Dict.mem. destruct (Dict.get k d) as [v|] eqn:E; cbn [negb].
  - rewrite E. reflexivity.
  - rewrite dict_get_set_same. reflexivity.
Qed.

Lemma dict_set_ensure (A : Type) (k : str) (w : list A)
    (d : Dict.dict (list A)) :
  Dict.set k w (if negb (Dict.mem k d) then Dict.set k [] d else d)
  = Dict.set k w d.
Proof.
  destruct (negb (Dict.mem k d)); [apply dict_set_set | reflexivity].
Qed.

Section Filed.
Variable db : UnicodeDB.

Lemma add_endpoint_eq (st : MainState) (path method : str)
    (operation : Operation) :
  add_endpoint db st path method operation
  = if is_http_method method then
      filename <- unique_filename (endpoints_by_category st)
                    (base_filename_of db path method operation) ;;
      Ok {| endpoints_by_category :=
              with_endpoint (endpoints_by_category st)
                (get_endpoint_category db path (tags_of operation))
                {| ep_path := path; ep_method := method;
                   ep_operation := operation; ep_filename := filename;
                   ep_summary := summary_of path method operation |};
            all_categories :=
              set_add (get_endpoint_category db path (tags_of operation))
                (all_categories st) |}
    else Ok st.
Proof.
  unfold add_endpoint, is_http_method.
  destruct (existsb (str_eqb method) http_methods); [|reflexivity].
  cbv zeta.
  destruct (unique_filename (endpoints_by_category st)
              (base_filename_of db path method operation)) as [f| |];
    try reflexivity.
  cbn [bind].
  pose proof (getitem_ensure Endpoint
                (get_endpoint_category db path (tags_of operation))
                (endpoints_by_category st)) as Hg.
  match goal with
  | |- context [bind ?g _] =>
      assert (Hg' : g = Ok (endpoints_at (endpoints_by_category st)
                              (get_endpoint_category db path
                                 (tags_of operation))))
        by exact Hg
  end.
  rewrite Hg'. cbn [bind]. f_equal. f_equal.
  unfold with_endpoint. apply dict_set_ensure.
Qed.

Variable spec : Specification.

Lemma add_endpoint_filed (st st' : MainState) (path method : str)
    (operation : Operation) (methods : Methods) :
  In (path, methods) spec -> In (method, operation) methods ->
  categories_filed db spec st ->
  add_endpoint db st path method operation = Ok st' ->
  categories_filed db spec st'.
Proof.
  intros Hpath Hmethod (Hcats & Hnd & Hall). rewrite add_endpoint_eq.
  destruct (is_http_method method) eqn:Em.
  2:{ intros H; injection H as <-. split; [|split]; assumption. }
  destruct (unique_filename (endpoints_by_category st)
              (base_filename_of db path method operation)) as [f| |] eqn:Ef;
    cbn [bind]; try discriminate.
  intros H; injection H as <-.
  unfold categories_filed, with_endpoint. cbn [endpoints_by_category all_categories].
  set (category := get_endpoint_category db path (tags_of operation)) in *.
  set (e := {| ep_path := path; ep_method := method;
               ep_operation := operation; ep_filename := f;
               ep_summary := summary_of path method operation |}).
  split; [|split].
  - rewrite dict_set_keys_eq, dict_mem_existsb, <- Hcats. reflexivity.
  - apply dict_set_NoDup, Hnd.
  - intros c eps Hin. apply dict_set_In_key in Hin.
    destruct Hin as [Hin | [-> ->]]; [exact (Hall _ _ Hin)|].
    split; [destruct (endpoints_at (endpoints_by_category st) category);
            discriminate|].
    intros e' He'. apply in_app_or in He'. destruct He' as [He'|[<-|[]]].
    + unfold endpoints_at in He'.
      destruct (Dict.get category (endpoints_by_category st)) as [l|] eqn:El;
        [|destruct He'].
      apply dict_get_In_key in El. exact (proj2 (Hall _ _ El) _ He').
    + unfold endpoint_filed, e.
      cbn [ep_path ep_method ep_operation ep_filename ep_summary].
      split; [reflexivity|].
      split; [apply existsb_str_eqb_In; exact Em|].
      split; [exists methods; split; assumption|].
      split; [reflexivity|].
      destruct (unique_loop_first _ _ _ _ _ _ Ef)
        as [_ [->|(_ & k & Hk & -> & _)]];
        [left; reflexivity | right; exists k; split; [exact Hk | reflexivity]].
Qed.

Lemma add_methods_filed (path : str) (methods : Methods) (rest : Methods) :
  forall st st',
    In (path, methods) spec -> incl rest methods ->
    categories_filed db spec st ->
    add_methods db st path rest = Ok st' ->
    categories_filed db spec st'.
Proof.
  induction rest as [|[method operation] rest IH];
    intros st st' Hpath Hincl Hst; simpl.
  - intros H; injection H as <-. exact Hst.
  - destruct (add_endpoint db st path method operation) as [st1| |] eqn:E;
      cbn [bind]; try discriminate.
    apply IH; [exact Hpath | intros x Hx; apply Hincl; right; exact Hx|].
    apply (add_endpoint_filed st st1 path method operation methods);
      [exact Hpath | apply Hincl; left; reflexivity | exact Hst | exact E].
Qed.

Lemma add_paths_filed (rest : Specification) :
  forall st st',
    incl rest spec -> categories_filed db spec st ->
    add_paths db st rest = Ok st' -> categories_filed db spec st'.
Proof.
  induction rest as [|[path methods] rest IH]; intros st st' Hincl Hst; simpl.
  - intros H; injection H as <-. exact Hst.
  - destruct (add_methods db st path methods) as [st1| |] eqn:E;
      cbn [bind]; try discriminate.
    apply IH; [intros x Hx; apply Hincl; right; exact Hx|].
    apply (add_methods_filed path methods methods st st1);
      [apply Hincl; left; reflexivity | apply incl_refl | exact Hst | exact E].
Qed.

End Filed.

Lemma collect_endpoints_filed (db : UnicodeDB) (spec : Specification) :
  exists st,
    collect_endpoints db spec = Ok st /\ categories_filed db spec st.
Proof.
  destruct (collect_endpoints_grows db spec) as (st & E & _).
  exists st. split; [exact E|].
  apply (add_paths_filed db spec spec
           {| endpoints_by_category := []; all_categories := [] |} st
           (incl_refl _)); [|exact E].
  split; [reflexivity|]. split; [constructor | intros c eps []].
Qed.



(** The categories that [main] collects for the directories are those
    that have a list of endpoints, every category has one list, and no
    list is empty: no directory is created without a document to hold. *)
Theorem main_categories (db : UnicodeDB) (spec : Specification) :
  exists st,
    collect_endpoints db spec = Ok st
    /\ (forall category,
          In category (all_categories st)
          <-> In category (map fst (endpoints_by_category st)))
    /\ NoDup (map fst (endpoints_by_category st))
    /\ forall category endpoints,
         In (category, endpoints) (endpoints_by_category st) ->
         endpoints <> [].
Proof.
  destruct (collect_endpoints_filed db spec) as (st & E & Hc & Hnd & H).
  exists st. split; [exact E|]. split; [rewrite Hc; tauto|].
  split; [exact Hnd|].
  intros category endpoints Hin. exact (proj1 (H _ _ Hin)).
Qed.

Lemma main_categories_witness :
  exists st,
    collect_endpoints unicode_excerpt two_lists = Ok st
    /\ In (lit "openai-gpt", [chat_list]) (endpoints_by_category st)
    /\ [chat_list] <> [].
Proof.
  destruct (main_categories unicode_excerpt two_lists)
    as (st & E & _ & _ & H).
  exists st. split; [exact E|].
  assert (Hin : In (lit "openai-gpt", [chat_list])
                  (endpoints_by_category st)).
  { vm_compute in E. injection E as <-. left; reflexivity. }
  split; [exact Hin | exact (H _ _ Hin)].
Defined.

(** No two endpoints of [main] have the same filename, in whatever
    categories they are. *)
Theorem main_filenames_distinct (db : UnicodeDB) (spec : Specification) :
  exists st,
    collect_endpoints db spec = Ok st
    /\ NoDup (map ep_filename (all_endpoints (endpoints_by_category st))).
Proof.
  destruct (collect_endpoints_grows db spec) as (st & E & _ & _ & Hnd & _).
  exists st. split; [exact E | exact Hnd].
Qed.

(* ================================================================= *)
(** ** The navigation *)

Lemma file_path_of_page (category : str) (e : Endpoint) :
  file_path_of category e = page_of category e ++ lit ".mdx".
Proof.
  unfold file_path_of, page_of, output_dir. rewrite <- !app_assoc.
  reflexivity.
Qed.

Lemma write_documents_cons (category : str) (endpoints : list Endpoint)
    (rest : Categories) :
  fst (write_documents ((category, endpoints) :: rest))
  = map (file_path_of category) endpoints ++ fst (write_documents rest).
Proof. simpl. destruct (write_documents rest). reflexivity. Qed.

Lemma navigation_pages_cons (db : UnicodeDB) (category : str)
    (endpoints : list Endpoint) (rest : Categories) :
  List.concat
    (map pages (generate_navigation_config db ((category, endpoints) :: rest)))
  = map (page_of category) endpoints
    ++ List.concat (map pages (generate_navigation_config db rest)).
Proof. destruct endpoints; reflexivity. Qed.

Lemma write_documents_pages (db : UnicodeDB) (ebc : Categories) :
  fst (write_documents ebc)
  = map (fun page => page ++ lit ".mdx")
      (List.concat (map pages (generate_navigation_config db ebc))).
Proof.
  induction ebc as [|[category endpoints] rest IH]; [reflexivity|].
  rewrite write_documents_cons, navigation_pages_cons, map_app, map_map, IH.
  f_equal. apply map_ext. intros e. apply file_path_of_page.
Qed.

(** The page references of the navigation that [main] builds are, in
    order, the paths of the files that it writes, without their
    extension: every page of the navigation has its file and every file
    its page. *)
Theorem navigation_pages_are_files (db : UnicodeDB) (spec : Specification) :
  exists st,
    collect_endpoints db spec = Ok st
    /\ fst (write_documents (endpoints_by_category st))
       = map (fun page => page ++ lit ".mdx")
           (List.concat
              (map pages
                 (generate_navigation_config db (endpoints_by_category st)))).
Proof.
  destruct (collect_endpoints_grows db spec) as (st & E & _).
  exists st. split; [exact E | apply write_documents_pages].
Qed.




(* ================================================================= *)
(** ** Lines that are no markers *)

Lemma step_no_marker (st st' : ParserState) (line : str) :
  is_path_marker (strip line) = false ->
  is_method_marker (strip line) = false ->
  step st line = Ok st' ->
  paths st' = paths st
  /\ current_path st' = current_path st
  /\ current_method st' = current_method st.
Proof.
  intros Hp Hm H. unfold step in H. cbv zeta in H. rewrite Hp, Hm in H.
  unfold commit_open_tags, with_operation in H.
  repeat match type of H with
  | context [if ?b then _ else _] => destruct b
  end; injection H as <-; repeat split.
Qed.

(** A line that is no path or method marker leaves the specification
    stored so far, the current path and the current method as they are:
    it can only change the operation in progress and the tag block. *)
Theorem step_keeps_stored (st st' : ParserState) (line : str) :
  is_path_marker (strip line) = false ->
  is_method_marker (strip line) = false ->
  step st line = Ok st' ->
  paths st' = paths st
  /\ current_path st' = current_path st
  /\ current_method st' = current_method st.
Proof. exact (step_no_marker st st' line). Qed.

Lemma step_keeps_stored_witness :
  is_path_marker (strip (lit "  summary: s")) = false
  /\ exists st',
       step open_tag_block (lit "  summary: s") = Ok st'
       /\ paths st' = paths open_tag_block
       /\ current_method st' = Some (lit "get").
Proof.
  split; [reflexivity|].
  destruct (step_total open_tag_block (lit "  summary: s")) as [st' E].
  exists st'. split; [exact E|].
  destruct (step_keeps_stored open_tag_block st' (lit "  summary: s")
              eq_refl eq_refl E) as (H1 & _ & H3).
  split; [exact H1 | exact H3].
Defined.

(* ================================================================= *)
(** ** The endpoint loop: order *)

Lemma endpoints_at_with_endpoint (ebc : Categories) (category c : str)
    (e : Endpoint) :
  endpoints_at (with_endpoint ebc category e) c
  = if str_eqb category c then endpoints_at ebc c ++ [e]
    else endpoints_at ebc c.
Proof.
  unfold endpoints_at at 1, with_endpoint.
  destruct (str_eqb category c) eqn:E.
  - apply str_eqb_eq in E. subst c. rewrite dict_get_set_same. reflexivity.
  - apply str_eqb_neq in E.
    rewrite dict_get_set_other by (intros Heq; apply E; symmetry; exact Heq).
    reflexivity.
Qed.

Section Order.
Variable db : UnicodeDB.
Variable c : str.

Lemma add_endpoint_order (st st' : MainState) (path method : str)
    (operation : Operation) :
  add_endpoint db st path method operation = Ok st' ->
  map entry_of (endpoints_at (endpoints_by_category st') c)
  = map entry_of (endpoints_at (endpoints_by_category st) c)
    ++ filter (filed_under db c) [(path, method, operation)].
Proof.
  rewrite add_endpoint_eq. unfold filed_under.
  cbn [filter fst snd]. destruct (is_http_method method).
  2:{ intros H; injection H as <-. cbn [andb]. rewrite app_nil_r.
      reflexivity. }
  destruct (unique_filename _ _) as [f| |]; cbn [bind]; try discriminate.
  intros H; injection H as <-. cbn [endpoints_by_category andb].
  rewrite endpoints_at_with_endpoint.
  destruct (str_eqb (get_endpoint_category db path (tags_of operation)) c).
  - rewrite map_app. reflexivity.
  - rewrite app_nil_r. reflexivity.
Qed.

Lemma add_methods_order (path : str) (methods : Methods) :
  forall st st',
    add_methods db st path methods = Ok st' ->
    map entry_of (endpoints_at (endpoints_by_category st') c)
    = map entry_of (endpoints_at (endpoints_by_category st) c)
      ++ filter (filed_under db c)
           (map (fun mo : str * Operation => (path, fst mo, snd mo)) methods).
Proof.
  induction methods as [|[method operation] rest IH]; intros st st'; simpl.
  - intros H; injection H as <-. rewrite app_nil_r. reflexivity.
  - destruct (add_endpoint db st path method operation) as [st1| |] eqn:E;
      cbn [bind]; try discriminate.
    intros H. rewrite (IH _ _ H), (add_endpoint_order _ _ _ _ _ E).
    rewrite <- app_assoc. f_equal. cbn [filter].
    destruct (filed_under db c (path, method, operation)); reflexivity.
Qed.

Lemma add_paths_order (spec : Specification) :
  forall st st',
    add_paths db st spec = Ok st' ->
    map entry_of (endpoints_at (endpoints_by_category st') c)
    = map entry_of (endpoints_at (endpoints_by_category st) c)
      ++ filter (filed_under db c) (entries_of spec).
Proof.
  induction spec as [|[path methods] rest IH]; intros st st'; simpl.
  - intros H; injection H as <-. rewrite app_nil_r. reflexivity.
  - destruct (add_methods db st path methods) as [st1| |] eqn:E;
      cbn [bind]; try discriminate.
    intros H. rewrite (IH _ _ H), (add_methods_order _ _ _ _ E).
    unfold entries_of. cbn [map List.concat fst snd].
    rewrite filter_app, <- app_assoc. reflexivity.
Qed.

End Order.

(** The endpoints of a category are, in order, the entries of the
    specification that have one of the five methods and that category:
    [main] files every such entry once, under its category, and keeps the
    order of the specification. *)
Theorem main_endpoints_in_order (db : UnicodeDB) (spec : Specification) :
  exists st,
    collect_endpoints db spec = Ok st
    /\ forall category,
         map entry_of (endpoints_at (endpoints_by_category st) category)
         = filter (filed_under db category) (entries_of spec).
Proof.
  destruct (collect_endpoints_grows db spec) as (st & E & _).
  exists st. split; [exact E|]. intros category.
  exact (add_paths_order db category spec _ _ E).
Qed.

(* ================================================================= *)
(** ** No operation is lost *)

Lemma str_pair_dec (a b : str * str) : a = b \/ a <> b.
Proof.
  destruct a as [a1 a2], b as [b1 b2].
  destruct (str_eqb a1 b1) eqn:E1.
  - apply str_eqb_eq in E1. subst b1. destruct (str_eqb a2 b2) eqn:E2.
    + apply str_eqb_eq in E2. subst b2. left; reflexivity.
    + apply str_eqb_neq in E2. right; intros H; injection H as H.
      apply E2, H.
  - apply str_eqb_neq in E1. right; intros H; injection H as H _.
    apply E1, H.
Qed.

Lemma store_operation_keeps (ps ps' : Specification)
    (path method p m : str) (op : Operation) :
  store_operation ps path method op = Ok ps' ->
  (exists o, lookup_operation ps p m = Some o) ->
  exists o, lookup_operation ps' p m = Some o.
Proof.
  intros E [o Ho].
  destruct (store_operation_found ps path method op)
    as (ps1 & E1 & Hsame & Hother & _).
  rewrite E in E1. injection E1 as <-.
  destruct (str_pair_dec (p, m) (path, method)) as [Heq|Hne].
  - injection Heq as -> ->. exists op. exact Hsame.
  - exists o. rewrite (Hother _ _ Hne). exact Ho.
Qed.

Lemma finalize_keeps (st : ParserState) (ps : Specification) (p m : str) :
  finalize st = Ok ps ->
  (exists o, lookup_operation (paths st) p m = Some o) ->
  exists o, lookup_operation ps p m = Some o.
Proof.
  unfold finalize. intros E H.
  destruct (current_path st) as [path|], (current_method st) as [method|];
    try (injection E as <-; exact H).
  destruct (truthy (Some path) && truthy (Some method)).
  - exact (store_operation_keeps _ _ _ _ _ _ _ E H).
  - injection E as <-. exact H.
Qed.

Lemma finalize_secured (st : ParserState) (ps : Specification) (p m : str) :
  p <> [] -> m <> [] ->
  finalize st = Ok ps -> secured st p m ->
  exists o, lookup_operation ps p m = Some o.
Proof.
  intros Hp Hm E [H|[H1 H2]]; [exact (finalize_keeps _ _ _ _ E H)|].
  unfold finalize in E. rewrite H1, H2 in E.
  destruct p as [|a p]; [contradiction|].
  destruct m as [|b m]; [contradiction|].
  cbn [truthy andb] in E.
  destruct (store_operation_found (paths st) (a :: p) (b :: m)
              (current_operation st)) as (ps1 & E1 & Hsame & _).
  rewrite E in E1. injection E1 as <-.
  exists (current_operation st). exact Hsame.
Qed.

Lemma step_secured (st st' : ParserState) (line p m : str) :
  p <> [] -> m <> [] ->
  step st line = Ok st' -> secured st p m -> secured st' p m.
Proof.
  intros Hp Hm H Hs.
  destruct (is_path_marker (strip line)) eqn:E1.
  - unfold step in H. cbv zeta in H. rewrite E1 in H.
    destruct (finalize st) as [ps| |] eqn:Ef; cbn [bind] in H;
      try discriminate H.
    injection H as <-. left. cbn [paths].
    exact (finalize_secured _ _ _ _ Hp Hm Ef Hs).
  - destruct (is_method_marker (strip line)) eqn:E2.
    + unfold step in H. cbv zeta in H. rewrite E1, E2 in H.
      destruct (finalize st) as [ps| |] eqn:Ef; cbn [bind] in H;
        try discriminate H.
      injection H as <-. left. cbn [paths].
      exact (finalize_secured _ _ _ _ Hp Hm Ef Hs).
    + destruct (step_no_marker _ _ _ E1 E2 H) as (H1 & H2 & H3).
      unfold secured. rewrite H1, H2, H3. exact Hs.
Qed.

Lemma run_lines_secured (lines : list str) (p m : str) :
  p <> [] -> m <> [] ->
  forall st st',
    run_lines st lines = Ok st' -> secured st p m -> secured st' p m.
Proof.
  intros Hp Hm. induction lines as [|line rest IH]; intros st st' H Hs.
  - injection H as <-. exact Hs.
  - cbn [run_lines] in H.
    destruct (step st line) as [st1| |] eqn:E; cbn [bind] in H;
      try discriminate H.
    exact (IH _ _ H (step_secured _ _ _ _ _ Hp Hm E Hs)).
Qed.

Lemma finish_secured (st : ParserState) (spec : Specification) (p m : str) :
  p <> [] -> m <> [] ->
  finish st = Ok spec -> secured st p m ->
  exists o, lookup_operation spec p m = Some o.
Proof.
  intros Hp Hm H Hs. unfold finish in H.
  assert (Hc : secured (commit_open_tags st) p m).
  { unfold commit_open_tags. destruct (in_tags st); exact Hs. }
  destruct (truthy (current_path st) && truthy (current_method st)) eqn:E.
  - exact (finalize_secured _ _ _ _ Hp Hm H Hc).
  - injection H as <-. destruct Hs as [Hs|[H1 H2]]; [exact Hs|].
    rewrite H1, H2 in E.
    destruct p as [|a p]; [contradiction|].
    destruct m as [|b m]; [contradiction|]. discriminate E.
Qed.

Lemma step_current_path (st st' : ParserState) (line : str) :
  is_path_marker (strip line) = false ->
  step st line = Ok st' -> current_path st' = current_path st.
Proof.
  intros E1 H. destruct (is_method_marker (strip line)) eqn:E2.
  - unfold step in H. cbv zeta in H. rewrite E1, E2 in H.
    destruct (finalize st) as [ps| |]; cbn [bind] in H; try discriminate H.
    injection H as <-. reflexivity.
  - exact (proj1 (proj2 (step_no_marker _ _ _ E1 E2 H))).
Qed.

Lemma run_lines_current_path (lines : list str) :
  Forall (fun line => is_path_marker (strip line) = false) lines ->
  forall st st',
    run_lines st lines = Ok st' -> current_path st' = current_path st.
Proof.
  induction 1 as [|line rest Hl _ IH]; intros st st' H.
  - injection H as <-. reflexivity.
  - cbn [run_lines] in H.
    destruct (step st line) as [st1| |] eqn:E; cbn [bind] in H;
      try discriminate H.
    rewrite (IH _ _ H). exact (step_current_path _ _ _ Hl E).
Qed.

Lemma run_lines_app (l1 l2 : list str) :
  forall st,
    run_lines st (l1 ++ l2)
    = (st' <- run_lines st l1 ;; run_lines st' l2).
Proof.
  induction l1 as [|line rest IH]; intros st; [reflexivity|].
  cbn [app run_lines]. destruct (step st line) as [st1| |]; cbn [bind];
    [apply IH | reflexivity | reflexivity].
Qed.

Lemma method_marker_not_path (line_stripped : str) :
  is_method_marker line_stripped = true ->
  is_path_marker line_stripped = false.
Proof.
  intros H. apply method_marker_In in H. simpl in H.
  decompose [or] H; try contradiction; subst; reflexivity.
Qed.

Lemma marker_names_nonempty (path_line method_line : str) :
  is_path_marker (strip path_line) = true ->
  is_method_marker (strip method_line) = true ->
  drop_last (strip path_line) <> [] /\ drop_last (strip method_line) <> [].
Proof.
  intros Hp Hm. split.
  - apply path_marker_slash in Hp.
    destruct (drop_last (strip path_line)); [discriminate Hp | discriminate].
  - apply method_marker_http in Hm. intros E. rewrite E in Hm.
    simpl in Hm. decompose [or] Hm; try discriminate; contradiction.
Qed.

(** No operation is lost: a method marker that comes after a path marker
    gives the specification an operation under the path of the last path
    marker before it and under its method. *)
Theorem parse_yaml_basic_complete (content : str) :
  exists spec,
    parse_yaml_basic content = Ok spec
    /\ forall before path_line between method_line after,
         lines_of content
         = before ++ path_line :: between ++ method_line :: after ->
         is_path_marker (strip path_line) = true ->
         Forall (fun line => is_path_marker (strip line) = false) between ->
         is_method_marker (strip method_line) = true ->
         exists op,
           lookup_operation spec (drop_last (strip path_line))
             (drop_last (strip method_line)) = Some op.
Proof.
  destruct (parse_yaml_basic_total content) as [spec E].
  exists spec. split; [exact E|].
  intros before path_line between method_line after Hl Hp Hb Hm.
  destruct (marker_names_nonempty _ _ Hp Hm) as [Hp0 Hm0].
  unfold parse_yaml_basic in E.
  change (split_on 10%N content) with (lines_of content) in E.
  rewrite Hl, run_lines_app in E.
  destruct (run_lines initial_state before) as [s0| |]; cbn [bind] in E;
    try discriminate E.
  cbn [run_lines] in E.
  destruct (step s0 path_line) as [s1| |] eqn:E1; cbn [bind] in E;
    try discriminate E.
  rewrite run_lines_app in E.
  destruct (run_lines s1 between) as [s2| |] eqn:E2; cbn [bind] in E;
    try discriminate E.
  cbn [run_lines] in E.
  destruct (step s2 method_line) as [s3| |] eqn:E3; cbn [bind] in E;
    try discriminate E.
  destruct (run_lines s3 after) as [s4| |] eqn:E4; cbn [bind] in E;
    try discriminate E.
  assert (H1 : current_path s1 = Some (drop_last (strip path_line))).
  { unfold step in E1. cbv zeta in E1. rewrite Hp in E1.
    destruct (finalize s0); cbn [bind] in E1; try discriminate E1.
    injection E1 as <-. reflexivity. }
  assert (H2 : current_path s2 = Some (drop_last (strip path_line))).
  { rewrite (run_lines_current_path _ Hb _ _ E2). exact H1. }
  assert (H3 : secured s3 (drop_last (strip path_line))
                 (drop_last (strip method_line))).
  { right. unfold step in E3. cbv zeta in E3.
    rewrite (method_marker_not_path _ Hm), Hm in E3.
    destruct (finalize s2); cbn [bind] in E3; try discriminate E3.
    injection E3 as <-. split; [exact H2 | reflexivity]. }
  exact (finish_secured _ _ _ _ Hp0 Hm0 E
           (run_lines_secured _ _ _ Hp0 Hm0 _ _ E4 H3)).
Qed.

Lemma parse_yaml_basic_complete_witness :
  exists spec,
    parse_yaml_basic two_methods_text = Ok spec
    /\ exists op, lookup_operation spec (lit "/a") (lit "get") = Some op.
Proof.
  destruct (parse_yaml_basic_complete two_methods_text) as (spec & E & H).
  exists spec. split; [exact E|].
  exact (H [] (lit "/a:") [] (lit "  get:") [lit "  post:"]
           eq_refl eq_refl (Forall_nil _) eq_refl).
Defined.

(* ================================================================= *)
(** ** Every endpoint has a name *)

Lemma endpoints_at_all (ebc : Categories) (category : str) (e : Endpoint) :
  In e (endpoints_at ebc category) -> In e (all_endpoints ebc).
Proof.
  unfold endpoints_at, all_endpoints, Dict.values.
  destruct (Dict.get category ebc) as [endpoints|] eqn:E; [|intros []].
  intros H. apply in_concat. exists endpoints. split; [|exact H].
  exact (in_map snd _ _ (dict_get_In_key _ _ _ _ E)).
Qed.

Lemma all_endpoints_category (ebc : Categories) (e : Endpoint) :
  In e (all_endpoints ebc) ->
  exists category endpoints, In (category, endpoints) ebc /\ In e endpoints.
Proof.
  unfold all_endpoints, Dict.values. intros H.
  apply in_concat in H. destruct H as (endpoints & H1 & H2).
  apply in_map_iff in H1. destruct H1 as ([category l] & Hl & Hin).
  simpl in Hl. subst l. exists category, endpoints. split; assumption.
Qed.

(** C10. [main] makes an endpoint of every entry of the specification
    whose method is in its list, and the filename of every endpoint is
    not empty: it is the base name, or the base name with a numeric
    suffix, and the base name is not empty, for it is the sanitized
    summary (or default) unless this is empty, and then the sanitized name
    built from the method and the path, which is never empty. *)
Theorem C10_filename_not_empty (db : UnicodeDB) (spec : Specification) :
  (exists st,
     collect_endpoints db spec = Ok st
     /\ (forall path method operation,
           In (path, method, operation) (entries_of spec) ->
           In method http_methods ->
           exists e,
             In e (all_endpoints (endpoints_by_category st))
             /\ entry_of e = (path, method, operation))
     /\ (forall e,
           In e (all_endpoints (endpoints_by_category st)) ->
           ep_filename e <> []
           /\ (ep_filename e
               = base_filename_of db (ep_path e) (ep_method e)
                   (ep_operation e)
               \/ exists k,
                    (1 <= k)%N
                    /\ ep_filename e
                       = suffixed
                           (base_filename_of db (ep_path e) (ep_method e)
                              (ep_operation e)) k)
           /\ In (ep_method e) http_methods))
  /\ forall path method operation,
       In method http_methods ->
       sanitize_filename db (fallback_name path method) <> []
       /\ base_filename_of db path method operation <> []
       /\ (sanitize_filename db (summary_of path method operation) = [] ->
           base_filename_of db path method operation
           = sanitize_filename db (fallback_name path method))
       /\ (sanitize_filename db (summary_of path method operation) <> [] ->
           base_filename_of db path method operation
           = sanitize_filename db (summary_of path method operation)).
Proof.
  split.
  - destruct (collect_endpoints_grows db spec) as (st & E & _ & Hall & _).
    exists st. split; [exact E|]. split.
    + intros path method operation Hin Hm.
      pose proof (add_paths_order db
                    (get_endpoint_category db path (tags_of operation))
                    spec _ _ E) as Ho.
      cbn [endpoints_by_category endpoints_at Dict.get map app] in Ho.
      assert (Hf : In (path, method, operation)
                     (filter (filed_under db
                                (get_endpoint_category db path
                                   (tags_of operation)))
                        (entries_of spec))).
      { apply filter_In. split; [exact Hin|]. unfold filed_under.
        cbn [fst snd]. rewrite str_eqb_refl, andb_true_r.
        apply existsb_str_eqb_In, Hm. }
      rewrite <- Ho in Hf. apply in_map_iff in Hf.
      destruct Hf as (e & He & Hin'). exists e.
      split; [exact (endpoints_at_all _ _ _ Hin') | exact He].
    + intros e He. rewrite Forall_forall in Hall.
      split; [exact (Hall e He)|].
      destruct (all_endpoints_category _ _ He) as (category & endpoints & Hc & Hin).
      destruct (collect_endpoints_filed db spec) as (st' & E' & _ & _ & Hfiled).
      rewrite E in E'. injection E' as <-.
      destruct (proj2 (Hfiled _ _ Hc) e Hin) as (_ & Hm & _ & _ & Hname).
      split; [exact Hname | exact Hm].
  - intros path method operation Hm.
    split; [apply fallback_name_nonempty, Hm|].
    split; [apply base_filename_of_nonempty, Hm|].
    unfold base_filename_of. cbv zeta. split; intros H.
    + rewrite H. reflexivity.
    + apply str_eqb_neq in H. rewrite H. reflexivity.
Qed.

Lemma C10_witness :
  In (lit "/v1/x", lit "post", set_summary (lit "???") empty_operation)
    (entries_of unnamed_operation)
  /\ sanitize_filename unicode_excerpt (lit "???") = []
  /\ exists st,
       collect_endpoints unicode_excerpt unnamed_operation = Ok st
       /\ In unnamed_endpoint (all_endpoints (endpoints_by_category st))
       /\ ep_filename unnamed_endpoint = lit "post-v1-x"
       /\ ep_filename unnamed_endpoint <> [].
Proof.
  split; [left; reflexivity|]. split; [reflexivity|].
  destruct (C10_filename_not_empty unicode_excerpt unnamed_operation)
    as [(st & E & _ & H) _].
  exists st. split; [exact E|].
  assert (Hin : In unnamed_endpoint
                  (all_endpoints (endpoints_by_category st))).
  { vm_compute in E. injection E as <-. left; reflexivity. }
  split; [exact Hin|]. split; [reflexivity|]. exact (proj1 (H _ Hin)).
Defined.

(* ================================================================= *)
(** ** The fields of one operation *)

Lemma step_summary_unset (st st' : ParserState) (line : str) :
  startswith (lit "summary:") (strip line) = false ->
  op_summary (current_operation st) = None ->
  step st line = Ok st' -> op_summary (current_operation st') = None.
Proof.
  intros Hline HI H.
  step_cases H; simpl; try reflexivity; try exact HI; congruence.
Qed.

Lemma step_description_unset (st st' : ParserState) (line : str) :
  startswith (lit "description:") (strip line) = false ->
  op_description (current_operation st) = None ->
  step st line = Ok st' -> op_description (current_operation st') = None.
Proof.
  intros Hline HI H.
  step_cases H; simpl; try reflexivity; try exact HI; congruence.
Qed.

Lemma step_tags_unset (st st' : ParserState) (line : str) :
  str_eqb (strip line) (lit "tags:") = false ->
  op_tags (current_operation st) = None /\ in_tags st = false ->
  step st line = Ok st' ->
  op_tags (current_operation st') = None /\ in_tags st' = false.
Proof.
  intros Hline [H1 H2] H.
  step_cases H; simpl;
    try (split; [first [reflexivity | exact H1]
                | first [reflexivity | assumption]]);
    congruence.
Qed.

Lemma run_lines_preserves (ok : str -> Prop) (J : ParserState -> Prop) :
  (forall st line st', ok line -> J st -> step st line = Ok st' -> J st') ->
  forall lines st st',
    Forall ok lines -> J st -> run_lines st lines = Ok st' -> J st'.
Proof.
  intros Hstep. induction lines as [|line rest IH]; intros st st' Hok HJ H.
  - injection H as <-. exact HJ.
  - inversion Hok as [|? ? Hline Hrest]; subst. cbn [run_lines] in H.
    destruct (step st line) as [st1| |] eqn:E; cbn [bind] in H;
      try discriminate H.
    exact (IH _ _ Hrest (Hstep _ _ _ Hline HJ E) H).
Qed.

Lemma is_marker_false (line : str) :
  is_marker line = false ->
  is_path_marker (strip line) = false
  /\ is_method_marker (strip line) = false.
Proof. unfold is_marker. apply orb_false_iff. Qed.

Lemma method_marker_colon (line_stripped : str) :
  is_method_marker line_stripped = true ->
  line_stripped = drop_last line_stripped ++ lit ":".
Proof.
  intros H. apply method_marker_In in H. simpl in H.
  decompose [or] H; try contradiction; subst; reflexivity.
Qed.

Section OneOperation.
Variables path method : str.
Hypothesis path_nonempty : path <> [].
Hypothesis method_nonempty : method <> [].

(** The operation under the path and method is recorded, and neither
    the cursor nor the lines to come open it again. *)
Lemma finalize_other (st : ParserState) (ps : Specification) :
  finalize st = Ok ps ->
  ~ (current_path st = Some path /\ current_method st = Some method) ->
  lookup_operation ps path method
  = lookup_operation (paths st) path method.
Proof.
  unfold finalize. intros E H.
  destruct (current_path st) as [p|], (current_method st) as [m|];
    try (injection E as <-; reflexivity).
  destruct (truthy (Some p) && truthy (Some m));
    [|injection E as <-; reflexivity].
  destruct (store_operation_found (paths st) p m (current_operation st))
    as (ps1 & E1 & _ & Hother & _).
  rewrite E in E1. injection E1 as <-. apply Hother.
  intros Heq. injection Heq as -> ->. apply H. split; reflexivity.
Qed.

Lemma finalize_cursor (st : ParserState) (ps : Specification) :
  finalize st = Ok ps ->
  current_path st = Some path -> current_method st = Some method ->
  lookup_operation ps path method = Some (current_operation st).
Proof.
  unfold finalize. intros E H1 H2. rewrite H1, H2 in E.
  destruct path as [|a p]; [contradiction|].
  destruct method as [|b m]; [contradiction|].
  cbn [truthy andb] in E.
  destruct (store_operation_found (paths st) (a :: p) (b :: m)
              (current_operation st)) as (ps1 & E1 & Hsame & _).
  rewrite E in E1. injection E1 as <-. exact Hsame.
Qed.

Lemma step_settled (op : Operation) (st st' : ParserState) (line : str)
    (rest : list str) :
  lookup_operation (paths st) path method = Some op ->
  ~ (current_path st = Some path /\ current_method st = Some method) ->
  reopened path method (current_path st) (line :: rest) = false ->
  step st line = Ok st' ->
  lookup_operation (paths st') path method = Some op
  /\ ~ (current_path st' = Some path /\ current_method st' = Some method)
  /\ reopened path method (current_path st') rest = false.
Proof.
  intros Hl Hc Hr H. cbn [reopened] in Hr.
  destruct (is_path_marker (strip line)) eqn:E1.
  - unfold step in H. cbv zeta in H. rewrite E1 in H.
    destruct (finalize st) as [ps| |] eqn:Ef; cbn [bind] in H;
      try discriminate H.
    injection H as <-. cbn [paths current_path current_method].
    rewrite (finalize_other _ _ Ef Hc).
    split; [exact Hl|]. split; [intros [_ H]; discriminate H | exact Hr].
  - destruct (is_method_marker (strip line)) eqn:E2.
    + unfold step in H. cbv zeta in H. rewrite E1, E2 in H.
      destruct (finalize st) as [ps| |] eqn:Ef; cbn [bind] in H;
        try discriminate H.
      injection H as <-. cbn [paths current_path current_method].
      rewrite (finalize_other _ _ Ef Hc).
      apply orb_false_iff in Hr. destruct Hr as [Hr1 Hr2].
      split; [exact Hl|]. split; [|exact Hr2].
      intros [H1 H2]. rewrite H1 in Hr1. injection H2 as H2.
      rewrite H2, !str_eqb_refl in Hr1. discriminate Hr1.
    + destruct (step_no_marker _ _ _ E1 E2 H) as (H1 & H2 & H3).
      rewrite H1, H2, H3. split; [exact Hl|]. split; [exact Hc | exact Hr].
Qed.

Lemma run_lines_settled (op : Operation) (lines : list str) :
  forall st st',
    lookup_operation (paths st) path method = Some op ->
    ~ (current_path st = Some path /\ current_method st = Some method) ->
    reopened path method (current_path st) lines = false ->
    run_lines st lines = Ok st' ->
    lookup_operation (paths st') path method = Some op
    /\ ~ (current_path st' = Some path /\ current_method st' = Some method).
Proof.
  induction lines as [|line rest IH]; intros st st' Hl Hc Hr H.
  - injection H as <-. split; assumption.
  - cbn [run_lines] in H.
    destruct (step st line) as [st1| |] eqn:E; cbn [bind] in H;
      try discriminate H.
    destruct (step_settled op _ _ _ _ Hl Hc Hr E) as (Hl1 & Hc1 & Hr1).
    exact (IH _ _ Hl1 Hc1 Hr1 H).
Qed.

Lemma finish_settled (op : Operation) (st : ParserState)
    (spec : Specification) :
  lookup_operation (paths st) path method = Some op ->
  ~ (current_path st = Some path /\ current_method st = Some method) ->
  finish st = Ok spec ->
  lookup_operation spec path method = Some op.
Proof.
  intros Hl Hc H. unfold finish in H.
  destruct (truthy (current_path st) && truthy (current_method st));
    [|injection H as <-; exact Hl].
  rewrite (finalize_other _ _ H); unfold commit_open_tags;
    destruct (in_tags st); assumption.
Qed.

(** From the last line of an operation on: the operation in progress is
    the one recorded in the end, with the tags of a block still open if
    the text ends there. *)
Lemma segment_recorded (st : ParserState) (after : list str)
    (spec : Specification) :
  current_path st = Some path -> current_method st = Some method ->
  segment_end after = true ->
  reopened path method (Some path) after = false ->
  (st' <- run_lines st after ;; finish st') = Ok spec ->
  exists op,
    lookup_operation spec path method = Some op
    /\ op_summary op = op_summary (current_operation st)
    /\ op_description op = op_description (current_operation st)
    /\ (in_tags st = false -> op_tags op = op_tags (current_operation st)).
Proof.
  intros H1 H2 Hend Hr H. destruct after as [|line rest].
  - cbn [run_lines bind] in H. unfold finish in H. rewrite H1, H2 in H.
    assert (Ht : truthy (Some path) && truthy (Some method) = true).
    { destruct path; [contradiction|]. destruct method; [contradiction|].
      reflexivity. }
    rewrite Ht in H.
    exists (current_operation (commit_open_tags st)).
    split.
    + apply (finalize_cursor _ _ H); unfold commit_open_tags;
        destruct (in_tags st); assumption.
    + unfold commit_open_tags. destruct (in_tags st); cbn; repeat split.
      discriminate.
  - cbn [segment_end] in Hend. cbn [run_lines] in H.
    destruct (step st line) as [st1| |] eqn:E; cbn [bind] in H;
      try discriminate H.
    destruct (run_lines st1 rest) as [st2| |] eqn:E2; cbn [bind] in H;
      try discriminate H.
    exists (current_operation st). split; [|repeat split].
    assert (Hst1 : lookup_operation (paths st1) path method
                   = Some (current_operation st)
                   /\ ~ (current_path st1 = Some path
                         /\ current_method st1 = Some method)
                   /\ reopened path method (current_path st1) rest = false).
    { cbn [reopened] in Hr. unfold is_marker in Hend.
      unfold step in E. cbv zeta in E.
      destruct (is_path_marker (strip line)) eqn:Ep.
      - destruct (finalize st) as [ps| |] eqn:Ef; cbn [bind] in E;
          try discriminate E.
        injection E as <-. cbn [paths current_path current_method].
        split; [exact (finalize_cursor _ _ Ef H1 H2)|].
        split; [intros [_ Hm]; discriminate Hm | exact Hr].
      - cbn [orb] in Hend. rewrite Hend in E, Hr.
        destruct (finalize st) as [ps| |] eqn:Ef; cbn [bind] in E;
          try discriminate E.
        injection E as <-. cbn [paths current_path current_method].
        apply orb_false_iff in Hr. destruct Hr as [Hr1 Hr2].
        rewrite H1. split; [exact (finalize_cursor _ _ Ef H1 H2)|].
        split; [|exact Hr2].
        intros [_ Hm]. injection Hm as Hm.
        rewrite Hm, !str_eqb_refl in Hr1. discriminate Hr1. }
    destruct Hst1 as (Hl1 & Hc1 & Hr1).
    destruct (run_lines_settled _ _ _ _ Hl1 Hc1 Hr1 E2) as [Hl2 Hc2].
    exact (finish_settled _ _ _ Hl2 Hc2 H).
Qed.

End OneOperation.

(** The state after a method marker that follows a path marker. *)
Lemma run_lines_opened (st0 st : ParserState)
    (path_line method_line : str) (between : list str) :
  is_path_marker (strip path_line) = true ->
  Forall (fun line => is_path_marker (strip line) = false) between ->
  is_method_marker (strip method_line) = true ->
  run_lines st0 (path_line :: between ++ [method_line]) = Ok st ->
  current_path st = Some (drop_last (strip path_line))
  /\ current_method st = Some (drop_last (strip method_line))
  /\ current_operation st = empty_operation
  /\ in_tags st = false.
Proof.
  intros Hp Hb Hm H. cbn [run_lines] in H.
  destruct (step st0 path_line) as [s1| |] eqn:E1; cbn [bind] in H;
    try discriminate H.
  rewrite run_lines_app in H.
  destruct (run_lines s1 between) as [s2| |] eqn:E2; cbn [bind] in H;
    try discriminate H.
  cbn [run_lines] in H.
  destruct (step s2 method_line) as [s3| |] eqn:E3; cbn [bind] in H;
    try discriminate H.
  injection H as <-.
  assert (H1 : current_path s1 = Some (drop_last (strip path_line))).
  { unfold step in E1. cbv zeta in E1. rewrite Hp in E1.
    destruct (finalize st0); cbn [bind] in E1; try discriminate E1.
    injection E1 as <-. reflexivity. }
  assert (H2 : current_path s2 = Some (drop_last (strip path_line))).
  { rewrite (run_lines_current_path _ Hb _ _ E2). exact H1. }
  unfold step in E3. cbv zeta in E3.
  rewrite (method_marker_not_path _ Hm), Hm in E3.
  destruct (finalize s2); cbn [bind] in E3; try discriminate E3.
  injection E3 as <-. repeat split. exact H2.
Qed.

(** C9. The extractor returns a specification on every input; a line that
    no branch of its loop acts on leaves its state as it was; a field
    that no line of the text sets is absent from every operation; and an
    operation has no field that none of its own lines sets, the lines
    from its method marker to the next marker or to the end of the text,
    whatever the other operations have: this for the operation recorded
    under a path and a method, the one that opens them last. *)
Theorem C9_extractor_total (content : str) :
  exists spec,
    parse_yaml_basic content = Ok spec
    /\ (forall st line,
          recognized st (strip line) = false -> step st line = Ok st)
    /\ (Forall (fun line => startswith (lit "summary:") (strip line) = false)
          (lines_of content) ->
        ops_all (fun op => op_summary op = None) spec)
    /\ (Forall (fun line => startswith (lit "description:") (strip line) = false)
          (lines_of content) ->
        ops_all (fun op => op_description op = None) spec)
    /\ (Forall (fun line => str_eqb (strip line) (lit "tags:") = false)
          (lines_of content) ->
        ops_all (fun op => op_tags op = None) spec)
    /\ forall before path_line between method_line body after,
         lines_of content
         = before ++ path_line :: between ++ method_line :: body ++ after ->
         is_path_marker (strip path_line) = true ->
         Forall (fun line => is_path_marker (strip line) = false) between ->
         is_method_marker (strip method_line) = true ->
         Forall (fun line => is_marker line = false) body ->
         segment_end after = true ->
         reopened (drop_last (strip path_line))
           (drop_last (strip method_line))
           (Some (drop_last (strip path_line))) after = false ->
         exists op,
           lookup_operation spec (drop_last (strip path_line))
             (drop_last (strip method_line)) = Some op
           /\ (Forall (fun line =>
                         startswith (lit "summary:") (strip line) = false)
                 body -> op_summary op = None)
           /\ (Forall (fun line =>
                         startswith (lit "description:") (strip line) = false)
                 body -> op_description op = None)
           /\ (Forall (fun line =>
                         str_eqb (strip line) (lit "tags:") = false)
                 body -> op_tags op = None).
Proof.
  destruct (parse_yaml_basic_total content) as [spec E].
  exists spec. split; [exact E|]. split; [exact step_unrecognized|].
  split; [intros H|split; [intros H|split; [intros H|]]].
  - exact (no_summary_line_invariant _ _ H E).
  - exact (no_description_line_invariant _ _ H E).
  - exact (no_tags_line_invariant _ _ H E).
  - intros before path_line between method_line body after
      Hl Hp Hb Hm Hbody Hend Hre.
    destruct (marker_names_nonempty _ _ Hp Hm) as [Hp0 Hm0].
    unfold parse_yaml_basic in E.
    change (split_on 10%N content) with (lines_of content) in E.
    replace (before ++ path_line :: between ++ method_line :: body ++ after)
      with (before ++ (path_line :: between ++ [method_line])
              ++ body ++ after) in Hl
      by (cbn [app]; rewrite <- !app_assoc; reflexivity).
    rewrite Hl, run_lines_app in E.
    destruct (run_lines initial_state before) as [s0| |]; cbn [bind] in E;
      try discriminate E.
    rewrite run_lines_app in E.
    destruct (run_lines s0 (path_line :: between ++ [method_line]))
      as [s3| |] eqn:E3; cbn [bind] in E; try discriminate E.
    rewrite run_lines_app in E.
    destruct (run_lines s3 body) as [s4| |] eqn:E4; cbn [bind] in E;
      try discriminate E.
    destruct (run_lines_opened _ _ _ _ _ Hp Hb Hm E3) as (H1 & H2 & H3 & H4).
    assert (Hkeep : current_path s4 = current_path s3
                    /\ current_method s4 = current_method s3).
    { apply (run_lines_preserves
               (fun line => is_marker line = false)
               (fun st => current_path st = current_path s3
                          /\ current_method st = current_method s3))
        with (lines := body) (st := s3); auto.
      intros st line st' Hline [Ha Hb'] Hstep.
      destruct (is_marker_false _ Hline) as [Hx Hy].
      destruct (step_no_marker _ _ _ Hx Hy Hstep) as (_ & Hc & Hd).
      rewrite Hc, Hd. split; assumption. }
    destruct Hkeep as [Hk1 Hk2]. rewrite H1 in Hk1. rewrite H2 in Hk2.
    destruct (segment_recorded _ _ Hp0 Hm0 s4 after spec Hk1 Hk2 Hend Hre E)
      as (op & Hop & Hs & Hd & Ht).
    exists op. split; [exact Hop|]. split; [|split]; intros Hno.
    + rewrite Hs.
      apply (run_lines_preserves _
               (fun st => op_summary (current_operation st) = None)
               (fun st line st' Hline => step_summary_unset st st' line Hline)
               body s3 s4 Hno); [rewrite H3; reflexivity | exact E4].
    + rewrite Hd.
      apply (run_lines_preserves _
               (fun st => op_description (current_operation st) = None)
               (fun st line st' Hline =>
                  step_description_unset st st' line Hline)
               body s3 s4 Hno); [rewrite H3; reflexivity | exact E4].
    + assert (Hj : op_tags (current_operation s4) = None
                   /\ in_tags s4 = false).
      { apply (run_lines_preserves _
                 (fun st => op_tags (current_operation st) = None
                            /\ in_tags st = false)
                 (fun st line st' Hline => step_tags_unset st st' line Hline)
                 body s3 s4 Hno); [rewrite H3, H4; split; reflexivity | exact E4]. }
      destruct Hj as [Hj1 Hj2]. rewrite (Ht Hj2). exact Hj1.
Qed.

Lemma C9_witness :
  exists spec,
    parse_yaml_basic three_operations_text = Ok spec
    /\ step open_tag_block [] = Ok open_tag_block
    /\ (exists op,
          lookup_operation spec (lit "/a") (lit "get") = Some op
          /\ op_summary op = Some (lit "s"))
    /\ exists op,
         lookup_operation spec (lit "/a") (lit "post") = Some op
         /\ op_summary op = None.
Proof.
  destruct (C9_extractor_total three_operations_text)
    as (spec & E & Hskip & _ & _ & _ & H).
  exists spec. split; [exact E|]. split; [apply Hskip; reflexivity|].
  split.
  - vm_compute in E. injection E as <-. eexists. split; reflexivity.
  - destruct (H [lit "paths:"] (lit "  /a:")
                [lit "    get:"; lit "      summary: s"] (lit "    post:")
                [lit "      operationId: p"]
                [lit "  /b:"; lit "    post:"; lit "      summary: t"]
                eq_refl eq_refl)
      as (op & Hop & Hs & _).
    + repeat constructor.
    + reflexivity.
    + repeat constructor.
    + reflexivity.
    + reflexivity.
    + exists op. split; [exact Hop|]. apply Hs. repeat constructor.
Defined.
